(** * Operand Deployment Lifecycle Manager: [controllers/util]

    A shallow embedding of the functions of package [util]:

    - [MergeCR] with its helper [checkKeyBeforeMerging] (merge.go), the deep
      merge of a default custom-resource spec into a changed one;
    - [CompareChannelVersion] (util.go), the component-wise comparison of
      two channel names such as [v3.20];
    - [GetOperatorNamespace], [GetWatchNamespace], [ResourceExists],
      [ResourceNamespaced], [StringSliceContentEqual] and [Contains]
      (util.go).

    Go values are modelled as follows.  A value decoded by [encoding/json]
    into [interface{}] is a [value]; a [map[string]interface{}] inside such
    a value is a [gmap string value]; a map variable, which can be nil, is a
    [gomap]; a [string] is a [string] (a sequence of bytes); a [[]byte] is
    a [list Byte.byte]; a [[]string] is a window of a memory of strings, so
    that two slices can share elements; an [int] is a 64-bit integer
    carried by [Z].  A run-time panic is an explicit result: [Panic] for
    the merge, [Panics] for the comparison, [None] for an index out of
    range in [StringSliceContentEqual]. *)

From Stdlib Require Import ZArith QArith Qcanon Ascii String Lia.
From Stdlib Require Strings.Byte.
From stdpp Require Import base option numbers strings list gmap fin_maps.
From stdpp Require Import sorting.

Local Open Scope string_scope.

(** ** Decoded JSON documents *)

(** What [json.Unmarshal] stores in an [interface{}]: [nil] for [null],
    [bool], [float64], [string], [[]interface{}] and
    [map[string]interface{}].  A JSON number decodes to a finite [float64];
    on finite floats Go's [==] is equality of the denoted rationals (the two
    zeros compare equal), so a number is carried by its rational value. *)
#[warnings="-register-all"]
Inductive value : Type :=
  | VNull
  | VBool (b : bool)
  | VNum (n : Qc)
  | VStr (s : string)
  | VArr (l : list value)
  | VMap (m : gmap string value).

Abbreviation document := (gmap string value).

(** [m[k]] on a Go map: the zero value of [interface{}], [nil], for a
    missing key. *)
Definition lookupNil (m : document) (k : string) : value :=
  default VNull (m !! k).

Definition isMap (v : value) : bool :=
  match v with VMap _ => true | _ => false end.

(** A value reached by descending through mappings along a list of keys. *)
Fixpoint getPath (ks : list string) (v : value) : option value :=
  match ks with
  | [] => Some v
  | k :: ks' =>
      match v with
      | VMap m => m !! k ≫= getPath ks'
      | _ => None
      end
  end.

(** [reflect.DeepEqual] on decoded values: same dynamic type and, by type,
    equal scalars, slices of equal length with deeply equal elements, maps
    of equal length where every key of the first is a key of the second
    with a deeply equal value.  (The decoder never yields a nil map or a
    nil slice inside an [interface{}], so the nil-versus-empty distinction
    of [DeepEqual] does not arise.) *)
Fixpoint DeepEqual (a b : value) {struct a} : bool :=
  match a, b with
  | VNull, VNull => true
  | VBool x, VBool y => bool_decide (x = y)
  | VNum x, VNum y => bool_decide (x = y)
  | VStr x, VStr y => bool_decide (x = y)
  | VArr xs, VArr ys =>
      (fix elems (xs ys : list value) {struct xs} : bool :=
         match xs, ys with
         | [], [] => true
         | x :: xs', y :: ys' => DeepEqual x y && elems xs' ys'
         | _, _ => false
         end) xs ys
  | VMap m1, VMap m2 =>
      bool_decide (size m1 = size m2) &&
      map_fold (λ k v1 (acc : bool),
                  acc && match m2 !! k with
                         | Some v2 => DeepEqual v1 v2
                         | None => false
                         end) true m1
  | _, _ => false
  end.

(** ** merge.go *)

(** A Go map is a reference that may be nil.  A nil map reads as an empty
    one ([m[k]] is the zero value, [range] yields nothing, [len] is 0); a
    write into it panics.  The maps inside a decoded value are never nil;
    the two maps that [MergeCR] decodes into can be, since
    [json.Unmarshal] sets a map to nil for the text [null]. *)
Inductive gomap : Type :=
  | NilMap
  | GoMap (m : document).

Definition entries (m : gomap) : document :=
  match m with
  | NilMap => ∅
  | GoMap d => d
  end.

(** [m[k]] read from a Go map. *)
Definition mapaccess (m : gomap) (k : string) : value :=
  lookupNil (entries m) k.

(** The run-time panics of merge.go: [assignment to entry in nil map] at
    lines 67 and 78, and the failed type assertion of line 72. *)
Inductive panic : Type :=
  | AssignToNilMap
  | InterfaceConversion.

(** A run of Go code: it ends with a value or it panics. *)
Inductive exec (A : Type) : Type :=
  | Done (a : A)
  | Panic (p : panic).

Arguments Done {A} _.
Arguments Panic {A} _.

#[global] Instance exec_bind : MBind exec :=
  λ A B f x, match x with Done a => f a | Panic p => Panic p end.

(** [m[k] = v]. *)
Definition mapassign (m : gomap) (k : string) (v : value) : exec gomap :=
  match m with
  | NilMap => Panic AssignToNilMap
  | GoMap d => Done (GoMap (<[k := v]> d))
  end.

(** The map [fm] after a call has worked on the map [inner'] that [fm]
    holds at [key].  A Go map is a reference: what the call writes into
    the inner map shows in [fm] without an assignment to [fm[key]].  The
    inner map is not nil, since it comes out of an [interface{}] of a
    decoded value, and a call leaves a map that is not nil not nil
    ([checkKeyBeforeMerging_GoMap]). *)
Definition written (fm : gomap) (key : string) (inner' : gomap) : gomap :=
  GoMap (<[key := VMap (entries inner')]> (entries fm)).

(** [checkKeyBeforeMerging key defaultMap changedMap finalMap] (merge.go
    61-82).  The Go function mutates [finalMap]; here it returns the
    mutated map, or the panic it ends in.  The type assertion
    [finalMap[key].(map[string]interface{})] of line 72 is evaluated at
    every iteration of the inner loop and panics when [finalMap[key]] is
    not a mapping.  [changedMapRef[newKey]] is read from [changedMapRef] as
    it was when the loop started: a key of the loop is visited once and a
    call writes under its own key only, so no earlier iteration can have
    written the entry that is read.  For the same reason the order in which
    [range] yields the keys is immaterial; the fold takes the order of
    [map_fold].  Line 67 stores the default sub-mapping itself, which
    [MergeCR] has decoded for this call and does not use afterwards, so the
    sharing is not observable and a mapping inside a value is modelled as a
    value. *)
Fixpoint checkKeyBeforeMerging (key : string) (defaultMap changedMap : value)
    (finalMap : gomap) {struct defaultMap} : exec gomap :=
  if DeepEqual defaultMap changedMap then Done finalMap else
  match defaultMap with
  | VMap defaultMapRef =>
      match changedMap with
      | VNull => mapassign finalMap key defaultMap
      | VMap changedMapRef =>
          map_fold
            (λ newKey newDefault (acc : exec gomap),
               fm ← acc;
               match mapaccess fm key with
               | VMap inner =>
                   inner' ← checkKeyBeforeMerging newKey newDefault
                              (lookupNil changedMapRef newKey) (GoMap inner);
                   Done (written fm key inner')
               | _ => Panic InterfaceConversion
               end)
            (Done finalMap) defaultMapRef
      | _ => Done finalMap
      end
  | _ =>
      match changedMap with
      | VNull => mapassign finalMap key defaultMap
      | _ => Done finalMap
      end
  end.

(** The loop of [MergeCR] (merge.go 55-57): every key of the default
    document is reconciled against the current state of the changed one. *)
Definition mergeKeys (defaultCRDecoded changedCRDecoded : gomap)
    : exec gomap :=
  map_fold
    (λ key dv (acc : exec gomap),
       fm ← acc; checkKeyBeforeMerging key dv (mapaccess fm key) fm)
    (Done changedCRDecoded) (entries defaultCRDecoded).

(** The same loop with the keys visited in a given order.  Go ranges over
    a map in an order it does not specify; [mergeKeys] takes the order of
    [map_fold], and [mergeKeys_any_order] shows that the order is
    immaterial. *)
Definition mergeKeysIn (order : list (string * value))
    (changedCRDecoded : gomap) : exec gomap :=
  foldl
    (λ (acc : exec gomap) entry,
       fm ← acc;
       checkKeyBeforeMerging entry.1 entry.2 (mapaccess fm entry.1) fm)
    (Done changedCRDecoded) order.

(** What [json.Unmarshal(data, &m)] does to a fresh empty map [m]: the map
    it leaves in [m], and whether it returns an error.  After a syntax
    error [m] is as it was; the text [null] sets [m] to nil without an
    error; an error met while an object is decoded (a number out of range)
    leaves the keys that were decoded. *)
Record unmarshalled : Type := { decodedMap : gomap; decodeErr : bool }.

(** A decoding without an error that leaves the map [m]. *)
Definition succeeded (m : gomap) : unmarshalled :=
  {| decodedMap := m; decodeErr := false |}.

(** A decoding that returns an error and leaves the map as it was made. *)
Definition untouched : unmarshalled :=
  {| decodedMap := GoMap ∅; decodeErr := true |}.

Section MergeCR.
(** [json.Unmarshal] into a fresh [map[string]interface{}], a collaborator
    of this package. *)
Variable Unmarshal : list Byte.byte → unmarshalled.

(** The map [json.Unmarshal(data, &m)] leaves; [MergeCR] only logs the
    error. *)
Definition decoded (data : list Byte.byte) : gomap :=
  decodedMap (Unmarshal data).

(** [MergeCR] (merge.go 27-59).  The calls of [klog.Errorf] write to the
    log only and are left out. *)
Definition MergeCR (defaultCR changedCR : list Byte.byte) : exec gomap :=
  if bool_decide (length defaultCR = 0) && bool_decide (length changedCR = 0)
  then Done (GoMap ∅)
  else if bool_decide (length defaultCR ≠ 0) && bool_decide (length changedCR = 0)
  then Done (decoded defaultCR)
  else if bool_decide (length defaultCR = 0) && bool_decide (length changedCR ≠ 0)
  then Done (decoded changedCR)
  else mergeKeys (decoded defaultCR) (decoded changedCR).
End MergeCR.

(** ** util.go *)

(** [strings.Cut(s, sep)] for a one-byte separator: the text before and
    after the first [sep], and whether [sep] occurs; [(s, "", false)] when
    it does not. *)
Fixpoint Cut (s : string) (sep : ascii) : string * string * bool :=
  match s with
  | EmptyString => (EmptyString, EmptyString, false)
  | String c s' =>
      if bool_decide (c = sep) then (EmptyString, s', true)
      else
        let '(before, after, found) := Cut s' sep in
        if found then (String c before, after, true)
        else (s, EmptyString, false)
  end.

(** [strings.Split(s, sep)] for a one-byte separator: the pieces between
    the occurrences of [sep], one more than there are occurrences. *)
Fixpoint Split (s : string) (sep : ascii) : list string :=
  match s with
  | EmptyString => [EmptyString]
  | String c s' =>
      if bool_decide (c = sep) then EmptyString :: Split s' sep
      else
        match Split s' sep with
        | piece :: pieces => String c piece :: pieces
        | [] => [String c EmptyString]
        end
  end.

(** [*strconv.NumError]: the text that failed and why. *)
Inductive numErrorKind : Type := ErrSyntax | ErrRange.

Record NumError : Type := { Num : string; Err : numErrorKind }.

Definition digitOf (c : ascii) : option Z :=
  let n := Z.of_N (N_of_ascii c) in
  if (48 <=? n)%Z && (n <=? 57)%Z then Some (n - 48)%Z else None.

(** The digit loop of [strconv.ParseUint(s, 10, 64)]: a byte that is no
    decimal digit is a syntax error, a value beyond [2^64 - 1] a range
    error, reported where the scan meets it. *)
Fixpoint parseUint (s : string) (n : Z) : Z + numErrorKind :=
  match s with
  | EmptyString => inl n
  | String c s' =>
      match digitOf c with
      | None => inr ErrSyntax
      | Some d =>
          if (1844674407370955162 <=? n)%Z then inr ErrRange
          else
            let n1 := (n * 10 + d)%Z in
            if (18446744073709551615 <? n1)%Z then inr ErrRange
            else parseUint s' n1
      end
  end.

(** [strconv.ParseInt(s, 10, 0)] with a 64-bit [int]: an optional sign,
    then at least one decimal digit and nothing else, the value within
    [-2^63, 2^63 - 1]. *)
Definition parseInt (s : string) : Z + numErrorKind :=
  match s with
  | EmptyString => inr ErrSyntax
  | String c s' =>
      let neg := bool_decide (c = "-"%char) in
      let digits := if bool_decide (c = "+"%char) || neg then s' else s in
      match digits with
      | EmptyString => inr ErrSyntax
      | _ =>
          match parseUint digits 0 with
          | inr k => inr k
          | inl un =>
              if negb neg && (9223372036854775808 <=? un)%Z then inr ErrRange
              else if neg && (9223372036854775808 <? un)%Z then inr ErrRange
              else inl (if neg then - un else un)%Z
          end
      end
  end.

(** [strconv.Atoi]: the fast path of [Atoi] for short inputs computes the
    same as [ParseInt(s, 10, 0)]; the error carries the text given. *)
Definition Atoi (s : string) : Z + NumError :=
  match parseInt s with
  | inl n => inl n
  | inr k => inr {| Num := s; Err := k |}
  end.

(** What a call of [CompareChannelVersion] does: it returns its two results
    [(v1IsLarger, err)], or it panics on [v2Slice[index]] with [index] out
    of range. *)
Inductive outcome : Type :=
  | Returns (v1IsLarger : bool) (err : option NumError)
  | Panics (index : nat).

(** Lines 142-161 of util.go: the two component lists the loop works on.
    Line 153 assigns [v1Cut], as the source does. *)
Definition channelSlices (v1 v2 : string) : list string * list string :=
  let '(_, v1Cut, isExist) := Cut v1 "v" in
  let v1Cut := if isExist then v1Cut else "0.0" in
  let v1Slice := Split v1Cut "." in
  let v1Cut := if bool_decide (length v1Slice = 1) then v1Cut +:+ ".0" else v1Cut in
  let '(_, v2Cut, isExist) := Cut v2 "v" in
  let v1Cut := if isExist then v1Cut else "0.0" in
  let v2Slice := Split v2Cut "." in
  let v2Cut := if bool_decide (length v2Slice = 1) then v2Cut +:+ ".0" else v2Cut in
  (Split v1Cut ".", Split v2Cut ".").

(** Lines 162-180 of util.go: [for index := range v1Slice], entered at
    [index] with [rest] the components of [v1Slice] from [index] on. *)
Fixpoint compareFrom (index : nat) (rest v2Slice : list string) : outcome :=
  match rest with
  | [] => Returns false None
  | c1 :: rest' =>
      match Atoi c1 with
      | inr e1 => Returns false (Some e1)
      | inl v1SplitInt =>
          match v2Slice !! index with
          | None => Panics index
          | Some c2 =>
              match Atoi c2 with
              | inr e2 => Returns false (Some e2)
              | inl v2SplitInt =>
                  if (v1SplitInt >? v2SplitInt)%Z then Returns true None
                  else if (v1SplitInt =? v2SplitInt)%Z
                       then compareFrom (S index) rest' v2Slice
                       else Returns false None
              end
          end
      end
  end.

Definition CompareChannelVersion (v1 v2 : string) : outcome :=
  let '(v1Slice, v2Slice) := channelSlices v1 v2 in
  compareFrom 0 v1Slice v2Slice.

(** ** util.go, the other functions *)

(** The process environment as [os.LookupEnv] sees it: a variable is set
    to a text, the empty one included, or it is not set. *)
Abbreviation environ := (gmap string string).

(** [GetOperatorNamespace] (util.go 31-37). *)
Definition GetOperatorNamespace (env : environ) : string :=
  match env !! "OPERATOR_NAMESPACE" with
  | None => ""
  | Some ns => ns
  end.

(** [GetWatchNamespace] (util.go 40-46). *)
Definition GetWatchNamespace (env : environ) : string :=
  match env !! "WATCH_NAMESPACE" with
  | None => GetOperatorNamespace env
  | Some ns => ns
  end.

(** The fields of [metav1.APIResource] and [metav1.APIResourceList] that
    this package reads. *)
Record APIResource : Type := { Kind : string; Namespaced : bool }.

Record APIResourceList : Type :=
  { GroupVersion : string; APIResources : list APIResource }.

(** What [dc.ServerGroupsAndResources()] answers: the resource lists and an
    error, which may come together (a partial discovery).  The lists hold
    no nil pointer. *)
Record discovered (error : Type) : Type :=
  { apiLists : list APIResourceList; discoveryErr : option error }.

Arguments apiLists {error} _.
Arguments discoveryErr {error} _.

(** The inner loop of [ResourceExists] and [ResourceNamespaced]: the first
    resource of the list whose kind is [kind], at which the function
    returns. *)
Fixpoint firstOfKind (resources : list APIResource) (kind : string)
    : option APIResource :=
  match resources with
  | [] => None
  | r :: resources' =>
      if bool_decide (Kind r = kind) then Some r
      else firstOfKind resources' kind
  end.

(** The outer loop of both functions: the lists are tried in order, those
    of another group version are passed over, and the loop goes on to the
    next list when a list of the right group version has no such kind. *)
Fixpoint firstInGroup (lists : list APIResourceList)
    (apiGroupVersion kind : string) : option APIResource :=
  match lists with
  | [] => None
  | apiList :: lists' =>
      if bool_decide (GroupVersion apiList = apiGroupVersion) then
        match firstOfKind (APIResources apiList) kind with
        | Some r => Some r
        | None => firstInGroup lists' apiGroupVersion kind
        end
      else firstInGroup lists' apiGroupVersion kind
  end.

(** [ResourceExists] (util.go 75-90). *)
Definition ResourceExists {error : Type} (dc : discovered error)
    (apiGroupVersion kind : string) : bool * option error :=
  match discoveryErr dc with
  | Some err => (false, Some err)
  | None =>
      match firstInGroup (apiLists dc) apiGroupVersion kind with
      | Some _ => (true, None)
      | None => (false, None)
      end
  end.

(** [ResourceNamespaced] (util.go 124-139). *)
Definition ResourceNamespaced {error : Type} (dc : discovered error)
    (apiGroupVersion kind : string) : bool * option error :=
  match discoveryErr dc with
  | Some err => (false, Some err)
  | None =>
      match firstInGroup (apiLists dc) apiGroupVersion kind with
      | Some r => (Namespaced r, None)
      | None => (false, None)
      end
  end.

(** [sort.Strings]: the slice in increasing order of its strings, compared
    byte by byte.  Equal strings cannot be told apart, so the sorted slice
    is the same whatever algorithm sorts it. *)
Definition sortStrings (l : list string) : list string :=
  merge_sort String.le l.

(** The loop of [StringSliceContentEqual] (util.go 99-103), entered at
    index [i] with [rest] the elements of [a] from [i] on; [None] is the
    panic of [b[i]] out of range. *)
Fixpoint sameFrom (i : nat) (rest b : list string) : option bool :=
  match rest with
  | [] => Some true
  | v :: rest' =>
      match b !! i with
      | None => None
      | Some w =>
          if bool_decide (v ≠ w) then Some false
          else sameFrom (S i) rest' b
      end
  end.

(** A [[]string] is a window onto an array: its header holds where the
    window starts and how many elements it has.  The arrays of the caller
    lie one after another in one memory, a list of strings, and a slice is
    a window of that memory: two slices of one array may share elements,
    slices of two arrays share none. *)
Record slice : Type := { offset : nat; len : nat }.

(** The elements of a slice, [s[0]] to [s[len(s)-1]]. *)
Definition elems (mem : list string) (s : slice) : list string :=
  take (len s) (drop (offset s) mem).

(** The memory after the elements of [s] have been overwritten by [w]. *)
Definition store (mem : list string) (s : slice) (w : list string)
    : list string :=
  (take (offset s) mem ++ w ++ drop (offset s + len s) mem)%list.

(** [sort.Strings(s)]: the elements of [s] are sorted in place, the rest of
    the memory is left as it is. *)
Definition sortSlice (mem : list string) (s : slice) : list string :=
  store mem s (sortStrings (elems mem s)).

(** [StringSliceContentEqual] (util.go 93-105).  The function sorts the two
    slices of its caller in place, [a] first and then [b], and compares
    them as the second sort has left them: the result comes with the memory
    as the call leaves it. *)
Definition StringSliceContentEqual (mem : list string) (a b : slice)
    : option bool * list string :=
  if bool_decide (len a ≠ len b) then (Some false, mem)
  else
    let mem1 := sortSlice mem a in
    let mem2 := sortSlice mem1 b in
    (sameFrom 0 (elems mem2 a) (elems mem2 b), mem2).

(** [Contains] (util.go 183-190). *)
Fixpoint Contains (list : list string) (s : string) : bool :=
  match list with
  | [] => false
  | v :: list' => if bool_decide (v = s) then true else Contains list' s
  end.

(** ** Definitions used in the proofs *)

(** The number of constructors of a document. *)
Fixpoint value_size (v : value) : nat :=
  match v with
  | VArr l => S (foldr (λ x acc, value_size x + acc) 0 l)
  | VMap m => S (map_fold (λ _ x acc, value_size x + acc) 0 m)
  | _ => 1
  end.


(** What a call [checkKeyBeforeMerging key dv fm[key] fm] leaves at [key]:
    [cur] is the entry of [fm] at [key] before the call ([None] when the
    key is missing).  It is used in proofs only; [checkKeyBeforeMerging]
    and [mergeKeys] are shown to compute it. *)
Fixpoint reconciled (dv : value) (cur : option value) {struct dv}
    : option value :=
  if DeepEqual dv (default VNull cur) then cur else
  match dv with
  | VMap dm =>
      match default VNull cur with
      | VNull => Some dv
      | VMap cm =>
          Some (VMap (merge (λ od oc, match od with
                                      | Some dv' => reconciled dv' oc
                                      | None => oc
                                      end) dm cm))
      | _ => cur
      end
  | _ =>
      match default VNull cur with
      | VNull => Some dv
      | _ => cur
      end
  end.

Definition reconcileEntry (od oc : option value) : option value :=
  match od with
  | Some dv => reconciled dv oc
  | None => oc
  end.

Definition merged (d c : document) : document := merge reconcileEntry d c.

(** The components of a remainder as lines 146-148 and 160 of util.go
    compute them: [.0] is appended when there is one component only. *)
Definition padded (cut : string) : list string :=
  Split (if bool_decide (length (Split cut ".") = 1) then cut +:+ ".0" else cut)
        ".".

(** The two lists hold integers that are equal in pairs at all indices
    before [i]: the loop of [CompareChannelVersion] gets as far as [i]. *)
Definition equalBefore (s1 s2 : list string) (i : nat) : Prop :=
  ∀ j, j < i → ∃ n c1 c2, s1 !! j = Some c1 ∧ s2 !! j = Some c2
                          ∧ Atoi c1 = inl n ∧ Atoi c2 = inl n.

(** The loop of [CompareChannelVersion] ends at index [i] with [out]: the
    component of the first list at [i] is no integer; or the second list
    has no index [i]; or its component at [i] is no integer; or the two
    integers differ. *)
Definition stopsAt (s1 s2 : list string) (i : nat) (out : outcome) : Prop :=
  ∃ c1, s1 !! i = Some c1 ∧
    match Atoi c1 with
    | inr e1 => out = Returns false (Some e1)
    | inl n1 =>
        match s2 !! i with
        | None => out = Panics i
        | Some c2 =>
            match Atoi c2 with
            | inr e2 => out = Returns false (Some e2)
            | inl n2 => n1 ≠ n2 ∧ out = Returns (n1 >? n2)%Z None
            end
        end
    end.

(** The slice lies within the memory. *)
Definition inMemory (mem : list string) (s : slice) : Prop :=
  (offset s + len s ≤ length mem)%nat.

(** The two slices share no element of memory: one of them is empty, or
    one ends where the other starts or before.  Slices of two arrays are
    apart; so are two windows of one array that do not overlap. *)
Definition apart (a b : slice) : Prop :=
  len a = 0 ∨ len b = 0
  ∨ (offset a + len a ≤ offset b)%nat ∨ (offset b + len b ≤ offset a)%nat.

(** The memory holds [x] at every index from [lo] up to [hi], [hi] left
    out. *)
Definition filled (mem : list string) (lo hi : nat) (x : string) : Prop :=
  ∀ p, (lo ≤ p)%nat → p < hi → mem !! p = Some x.

(** ** Sample documents *)

(** The bytes of a JSON text, written with ['] for the double quote. *)
Fixpoint quoted (s : string) : string :=
  match s with
  | EmptyString => EmptyString
  | String c s' =>
      String (if bool_decide (c = "'"%char) then ascii_of_nat 34 else c)
             (quoted s')
  end.

Definition jsonText (s : string) : list Byte.byte :=
  list_byte_of_string (quoted s).

Definition num (z : Z) : value := VNum (Q2Qc (inject_Z z)).

(** A finite fragment of [json.Unmarshal]: the JSON texts used below with
    what decoding them into a fresh map leaves.  [null] leaves a nil
    map. *)
Definition sampleTexts : gmap string unmarshalled :=
  list_to_map
    [ (quoted "{}", succeeded (GoMap ∅));
      (quoted "null", succeeded NilMap);
      (quoted "{'a':null}", succeeded (GoMap {[ "a" := VNull ]}));
      (quoted "{'a':5}", succeeded (GoMap {[ "a" := num 5 ]}));
      (quoted "{'b':7}", succeeded (GoMap {[ "b" := num 7 ]}));
      (quoted "{'a':5,'b':7}",
         succeeded (GoMap {[ "a" := num 5; "b" := num 7 ]}));
      (quoted "{'a':{'x':1}}",
         succeeded (GoMap {[ "a" := VMap {[ "x" := num 1 ]} ]}));
      (quoted "{'a':'scalar'}", succeeded (GoMap {[ "a" := VStr "scalar" ]}));
      (quoted "{'a':{'x':1,'y':2}}",
         succeeded (GoMap {[ "a" := VMap {[ "x" := num 1; "y" := num 2 ]} ]}));
      (quoted "{'a':{'x':9,'z':[true]}}",
         succeeded
           (GoMap {[ "a" := VMap {[ "x" := num 9;
                                    "z" := VArr [VBool true] ]} ]}));
      (quoted "{'a':{'x':9,'y':2,'z':[true]}}",
         succeeded
           (GoMap {[ "a" := VMap {[ "x" := num 9; "y" := num 2;
                                    "z" := VArr [VBool true] ]} ]})) ].

(** Every other input, the empty one included, is answered as a syntax
    error is: with an error and the map untouched. *)
Definition sampleUnmarshal (data : list Byte.byte) : unmarshalled :=
  default untouched (sampleTexts !! string_of_list_byte data).

(** ** Structural facts about documents *)

Lemma value_size_elem (l : list value) (x : value) :
  x ∈ l → value_size x < value_size (VArr l).
Proof.
  simpl. induction 1 as [x l|x y l _ IH]; simpl; lia.
Qed.

Lemma value_size_lookup (m : document) (k : string) (x : value) :
  m !! k = Some x → value_size x < value_size (VMap m).
Proof.
  simpl. revert k x.
  induction m as [|i y m Hi Hfst IH] using map_first_key_ind; intros k x Hk.
  - by rewrite lookup_empty in Hk.
  - rewrite (map_fold_insert_first_key _ _ _ _ _ Hi Hfst).
    destruct (decide (i = k)) as [->|Hne].
    + rewrite lookup_insert_eq in Hk. injection Hk as ->. lia.
    + rewrite lookup_insert_ne in Hk by done.
      specialize (IH _ _ Hk). lia.
Qed.

(** Induction over a document with its nested slices and mappings. *)
Lemma value_nested_ind (P : value → Prop) :
  P VNull →
  (∀ b, P (VBool b)) →
  (∀ n, P (VNum n)) →
  (∀ s, P (VStr s)) →
  (∀ l, Forall P l → P (VArr l)) →
  (∀ m, map_Forall (λ _ x, P x) m → P (VMap m)) →
  ∀ v, P v.
Proof.
  intros Hnull Hbool Hnum Hstr Harr Hmap v.
  assert (∀ n v, value_size v < n → P v) as Hall.
  { clear v. induction n as [|n IHn]; intros v Hlt; [lia|].
    destruct v as [| | | |l|m]; auto.
    - apply Harr, Forall_forall. intros x Hx.
      apply IHn. pose proof (value_size_elem _ _ Hx). lia.
    - apply Hmap. intros k x Hk.
      apply IHn. pose proof (value_size_lookup _ _ _ Hk). lia. }
  apply (Hall (S (value_size v))). lia.
Qed.

(** ** [DeepEqual] decides equality of documents *)

Lemma DeepEqual_map_fold (m1 m2 : document) :
  map_fold (λ k v1 (acc : bool),
              acc && match m2 !! k with
                     | Some v2 => DeepEqual v1 v2
                     | None => false
                     end) true m1 = true
  ↔ ∀ k v1, m1 !! k = Some v1 →
            ∃ v2, m2 !! k = Some v2 ∧ DeepEqual v1 v2 = true.
Proof.
  induction m1 as [|i y m Hi Hfst IH] using map_first_key_ind.
  - rewrite map_fold_empty. split; [|done].
    intros _ k v1 Hk. by rewrite lookup_empty in Hk.
  - rewrite (map_fold_insert_first_key _ _ _ _ _ Hi Hfst).
    rewrite andb_true_iff, IH. split.
    + intros [Hrest Hhere] k v1 Hk.
      destruct (decide (i = k)) as [->|Hne].
      * rewrite lookup_insert_eq in Hk. injection Hk as ->.
        destruct (m2 !! k) as [v2|]; [eauto|done].
      * rewrite lookup_insert_ne in Hk by done. eauto.
    + intros Hall. split.
      * intros k v1 Hk. apply Hall.
        rewrite lookup_insert_ne; [done|]. intros ->. congruence.
      * destruct (Hall i y) as (v2 & -> & Heq); [apply lookup_insert_eq|done].
Qed.

Lemma DeepEqual_eq (a b : value) : DeepEqual a b = true ↔ a = b.
Proof.
  revert b. induction a as [|x|x|x|xs IH|m1 IH] using value_nested_ind;
    intros b; destruct b as [|y|y|y|ys|m2]; simpl; try (split; congruence).
  - rewrite bool_decide_eq_true. split; congruence.
  - rewrite bool_decide_eq_true. split; congruence.
  - rewrite bool_decide_eq_true. split; congruence.
  - revert ys. induction IH as [|x xs Hx _ IHxs]; intros [|y ys];
      try (split; congruence).
    rewrite andb_true_iff, Hx, IHxs. split.
    + intros [-> Heq]. congruence.
    + by intros [= -> ->].
  - rewrite andb_true_iff, bool_decide_eq_true, DeepEqual_map_fold. split.
    + intros [Hsize Hsub]. f_equal.
      apply map_subseteq_size_eq; [|lia].
      apply map_subseteq_spec. intros k v1 Hk.
      destruct (Hsub k v1 Hk) as (v2 & Hk2 & Heq).
      apply (IH k v1 Hk) in Heq. congruence.
    + intros [= <-]. split; [done|].
      intros k v1 Hk. exists v1. split; [done|]. by apply (IH k v1 Hk).
Qed.

Lemma DeepEqual_refl (a : value) : DeepEqual a a = true.
Proof. by apply DeepEqual_eq. Qed.

Lemma DeepEqual_neq (a b : value) : DeepEqual a b = false ↔ a ≠ b.
Proof. rewrite <- DeepEqual_eq. by destruct (DeepEqual a b). Qed.

(** ** The loops compute the closed form *)

Lemma lookup_merged (d c : document) (k : string) :
  merged d c !! k = reconcileEntry (d !! k) (c !! k).
Proof.
  unfold merged. rewrite lookup_merge.
  by destruct (d !! k), (c !! k).
Qed.

Lemma reconciled_VMap (dm : document) (cur : option value) :
  reconciled (VMap dm) cur =
    if DeepEqual (VMap dm) (default VNull cur) then cur else
    match default VNull cur with
    | VNull => Some (VMap dm)
    | VMap cm => Some (VMap (merged dm cm))
    | _ => cur
    end.
Proof. reflexivity. Qed.

Lemma merged_empty_l (c : document) : merged ∅ c = c.
Proof.
  apply map_eq. intros k. by rewrite lookup_merged, lookup_empty.
Qed.

Lemma merged_insert_l (d c : document) (i : string) (dv : value) :
  d !! i = None →
  partial_alter (reconciled dv) i (merged d c) = merged (<[i := dv]> d) c.
Proof.
  intros Hi. apply map_eq. intros k.
  rewrite lookup_partial_alter, !lookup_merged.
  destruct (decide (i = k)) as [->|Hne].
  - by rewrite lookup_insert_eq, Hi.
  - by rewrite lookup_insert_ne.
Qed.

Lemma partial_alter_keep (f : option value → option value) (m : document)
    (i : string) :
  f (m !! i) = m !! i → partial_alter f i m = m.
Proof.
  intros Hf. apply map_eq. intros k. rewrite lookup_partial_alter.
  destruct (decide (i = k)) as [->|]; done.
Qed.

Lemma partial_alter_store (f : option value → option value) (m : document)
    (i : string) (x : value) :
  f (m !! i) = Some x → partial_alter f i m = <[i := x]> m.
Proof.
  intros Hf. apply map_eq. intros k. rewrite lookup_partial_alter.
  destruct (decide (i = k)) as [->|].
  - by rewrite lookup_insert_eq.
  - by rewrite lookup_insert_ne.
Qed.

(** The inner loop of [checkKeyBeforeMerging] (merge.go 71-73), under the
    condition that [finalMap[key]] is the changed mapping. *)
Lemma inner_loop_merged (key : string) (dm cm : document) (fm : document) :
  map_Forall (λ _ dv, ∀ k m,
    checkKeyBeforeMerging k dv (lookupNil m k) (GoMap m)
    = Done (GoMap (partial_alter (reconciled dv) k m))) dm →
  fm !! key = Some (VMap cm) →
  map_fold
    (λ newKey newDefault (acc : exec gomap),
       fm' ← acc;
       match mapaccess fm' key with
       | VMap inner =>
           inner' ← checkKeyBeforeMerging newKey newDefault
                      (lookupNil cm newKey) (GoMap inner);
           Done (written fm' key inner')
       | _ => Panic InterfaceConversion
       end)
    (Done (GoMap fm)) dm
  = Done (GoMap (<[key := VMap (merged dm cm)]> fm)).
Proof.
  intros Hall Hkey.
  induction dm as [|i y m Hi Hfst IH] using map_first_key_ind.
  - rewrite map_fold_empty, merged_empty_l. by rewrite insert_id.
  - rewrite (map_fold_insert_first_key _ _ _ _ _ Hi Hfst).
    apply map_Forall_insert in Hall as [Hy Hall]; [|done].
    rewrite (IH Hall). simpl.
    unfold mapaccess, lookupNil at 1. simpl. rewrite lookup_insert_eq. simpl.
    assert (lookupNil cm i = lookupNil (merged m cm) i) as ->.
    { unfold lookupNil. by rewrite lookup_merged, Hi. }
    rewrite Hy. simpl. unfold written. simpl.
    by rewrite merged_insert_l, insert_insert_eq.
Qed.

(** Both functions read off their source when the default is no mapping
    (the [default] arm of the type switch, merge.go 75-79). *)
Lemma checkKeyBeforeMerging_other (dv : value) (key : string) (cv : value)
    (fm : gomap) :
  isMap dv = false →
  checkKeyBeforeMerging key dv cv fm =
    if DeepEqual dv cv then Done fm else
    match cv with
    | VNull => mapassign fm key dv
    | _ => Done fm
    end.
Proof. by destruct dv. Qed.

Lemma reconciled_other (dv : value) (cur : option value) :
  isMap dv = false →
  reconciled dv cur =
    if DeepEqual dv (default VNull cur) then cur else
    match default VNull cur with
    | VNull => Some dv
    | _ => cur
    end.
Proof. by destruct dv. Qed.

Lemma checkKeyBeforeMerging_VMap (dm : document) (key : string) (cv : value)
    (fm : gomap) :
  checkKeyBeforeMerging key (VMap dm) cv fm =
    if DeepEqual (VMap dm) cv then Done fm else
    match cv with
    | VNull => mapassign fm key (VMap dm)
    | VMap cm =>
        map_fold
          (λ newKey newDefault (acc : exec gomap),
             fm' ← acc;
             match mapaccess fm' key with
             | VMap inner =>
                 inner' ← checkKeyBeforeMerging newKey newDefault
                            (lookupNil cm newKey) (GoMap inner);
                 Done (written fm' key inner')
             | _ => Panic InterfaceConversion
             end)
          (Done fm) dm
    | _ => Done fm
    end.
Proof. reflexivity. Qed.

(** One call of [checkKeyBeforeMerging] on a map that is not nil, with
    [finalMap[key]] as its [changedMap], does not panic and rewrites the
    entry at [key] only. *)
Lemma checkKeyBeforeMerging_reconciled (dv : value) (key : string)
    (fm : document) :
  checkKeyBeforeMerging key dv (lookupNil fm key) (GoMap fm)
  = Done (GoMap (partial_alter (reconciled dv) key fm)).
Proof.
  revert key fm. induction dv as [|x|x|x|xs _|dm IH] using value_nested_ind;
    intros key fm.
  1-5: rewrite checkKeyBeforeMerging_other by done; unfold lookupNil;
    destruct (DeepEqual _ _) eqn:Heq;
    [|destruct (default VNull (fm !! key)) eqn:Hcv];
    unfold mapassign; do 2 f_equal; symmetry;
    (first [apply partial_alter_keep | apply partial_alter_store]);
    rewrite reconciled_other by done; by rewrite ?Hcv, ?Heq.
  rewrite checkKeyBeforeMerging_VMap.
  change (lookupNil fm key) with (default VNull (fm !! key)).
  destruct (DeepEqual _ _) eqn:Heq;
    [|destruct (default VNull (fm !! key)) as [| | | | |cm] eqn:Hcv].
  7: { assert (fm !! key = Some (VMap cm)) as Hk.
       { destruct (fm !! key); simpl in Hcv; by subst. }
       rewrite (inner_loop_merged key dm cm fm IH Hk). do 2 f_equal. symmetry.
       apply partial_alter_store.
       by rewrite reconciled_VMap, Hcv, Heq. }
  all: unfold mapassign; do 2 f_equal; symmetry;
    (first [apply partial_alter_keep | apply partial_alter_store]);
    by rewrite reconciled_VMap, ?Hcv, ?Heq.
Qed.

(** A call leaves a map that is not nil not nil. *)
Lemma checkKeyBeforeMerging_GoMap (dv : value) (key : string)
    (fm : document) :
  ∃ fm', checkKeyBeforeMerging key dv (lookupNil fm key) (GoMap fm)
         = Done (GoMap fm').
Proof. rewrite checkKeyBeforeMerging_reconciled. eauto. Qed.

(** On a nil map, which holds no key, a call does nothing for a null
    default and panics on its write for any other default. *)
Lemma checkKeyBeforeMerging_NilMap (dv : value) (key : string) :
  checkKeyBeforeMerging key dv (mapaccess NilMap key) NilMap
  = if DeepEqual dv VNull then Done NilMap else Panic AssignToNilMap.
Proof. by destruct dv. Qed.

Lemma DeepEqual_VNull (dv : value) : DeepEqual dv VNull = true ↔ dv = VNull.
Proof. apply DeepEqual_eq. Qed.

(** The loop of [MergeCR] on a changed map that is not nil computes
    [merged]. *)
Lemma mergeKeys_merged (d : gomap) (c : document) :
  mergeKeys d (GoMap c) = Done (GoMap (merged (entries d) c)).
Proof.
  unfold mergeKeys. generalize (entries d). clear d. intros d.
  induction d as [|i y m Hi Hfst IH] using map_first_key_ind.
  - by rewrite map_fold_empty, merged_empty_l.
  - rewrite (map_fold_insert_first_key _ _ _ _ _ Hi Hfst), IH. simpl.
    change (mapaccess (GoMap (merged m c)) i) with (lookupNil (merged m c) i).
    by rewrite checkKeyBeforeMerging_reconciled, merged_insert_l.
Qed.

(** The loop of [MergeCR] on a nil changed map: it returns the nil map when
    every value of the default document is null, and it panics on its first
    write otherwise. *)
Lemma mergeKeys_NilMap (d : gomap) :
  mergeKeys d NilMap
  = if bool_decide (map_Forall (λ _ dv, DeepEqual dv VNull = true) (entries d))
    then Done NilMap else Panic AssignToNilMap.
Proof.
  unfold mergeKeys. generalize (entries d). clear d. intros d.
  induction d as [|i y m Hi Hfst IH] using map_first_key_ind.
  - rewrite map_fold_empty. rewrite bool_decide_eq_true_2; [done|].
    apply map_Forall_empty.
  - rewrite (map_fold_insert_first_key _ _ _ _ _ Hi Hfst), IH.
    case_bool_decide as Hm; simpl.
    + rewrite checkKeyBeforeMerging_NilMap.
      destruct (DeepEqual y VNull) eqn:Hy.
      * rewrite bool_decide_eq_true_2; [done|]. by apply map_Forall_insert_2.
      * rewrite bool_decide_eq_false_2; [done|].
        intros Hall%map_Forall_insert_1_1. congruence.
    + rewrite bool_decide_eq_false_2; [done|].
      intros Hall. apply Hm. by apply map_Forall_insert_1_2 in Hall.
Qed.

Lemma mergeKeysIn_Panic (order : list (string * value)) (p : panic) :
  foldl
    (λ (acc : exec gomap) entry,
       fm ← acc;
       checkKeyBeforeMerging entry.1 entry.2 (mapaccess fm entry.1) fm)
    (Panic p) order = Panic p.
Proof. by induction order. Qed.

Lemma mergeKeysIn_NilMap (order : list (string * value)) :
  mergeKeysIn order NilMap
  = if bool_decide (Forall (λ entry, DeepEqual entry.2 VNull = true) order)
    then Done NilMap else Panic AssignToNilMap.
Proof.
  unfold mergeKeysIn. induction order as [|[k dv] order IH]; [done|].
  cbn [foldl mbind exec_bind fst snd].
  - rewrite checkKeyBeforeMerging_NilMap. destruct (DeepEqual dv VNull) eqn:Hdv.
    + rewrite IH. apply (f_equal (λ b : bool, if b then _ else _)).
      apply bool_decide_ext. rewrite Forall_cons. simpl. tauto.
    + rewrite mergeKeysIn_Panic. rewrite bool_decide_eq_false_2; [done|].
      intros [Hhd _]%Forall_cons. simpl in Hhd. congruence.
Qed.

(** Whatever the order in which the loop of [MergeCR] meets the keys of
    the default document, it ends in the same mapping. *)
Lemma mergeKeysIn_merged (order : list (string * value)) (c : document) :
  NoDup order.*1 →
  mergeKeysIn order (GoMap c) = Done (GoMap (merged (list_to_map order) c)).
Proof.
  unfold mergeKeysIn. revert c.
  induction order as [|[k dv] order IH]; intros c Hnodup; simpl.
  - by rewrite merged_empty_l.
  - apply NoDup_cons in Hnodup as [Hk Hnodup].
    change (mapaccess (GoMap c) k) with (lookupNil c k).
    rewrite checkKeyBeforeMerging_reconciled, (IH _ Hnodup). do 2 f_equal.
    apply not_elem_of_list_to_map_1 in Hk. simpl in Hk.
    apply map_eq. intros i. rewrite !lookup_merged, lookup_partial_alter.
    destruct (decide (k = i)) as [->|Hne].
    + by rewrite lookup_insert_eq, Hk.
    + by rewrite lookup_insert_ne.
Qed.

Lemma mergeKeys_any_order (order : list (string * value)) (d c : gomap) :
  order ≡ₚ map_to_list (entries d) → mergeKeysIn order c = mergeKeys d c.
Proof.
  intros Hperm. destruct c as [|c].
  - rewrite mergeKeys_NilMap, mergeKeysIn_NilMap.
    apply (f_equal (λ b : bool, if b then _ else _)).
    apply bool_decide_ext. rewrite Hperm.
    rewrite map_Forall_to_list. apply Forall_iff. by intros [k dv].
  - assert (NoDup order.*1) as Hnodup.
    { rewrite Hperm. apply NoDup_fst_map_to_list. }
    rewrite mergeKeys_merged, mergeKeysIn_merged by done.
    by rewrite (list_to_map_proper order (map_to_list (entries d))),
      list_to_map_to_list.
Qed.

(** ** Properties of the closed form *)

Lemma reconciled_equal (dv : value) (cur : option value) :
  dv = default VNull cur → reconciled dv cur = cur.
Proof.
  intros Heq. apply DeepEqual_eq in Heq.
  destruct dv; try (by rewrite reconciled_other, Heq).
  by rewrite reconciled_VMap, Heq.
Qed.

(** The four ways a call can end, read off [reconciled]: the values are
    deeply equal; the changed value is missing or null; both are mappings
    that differ; or they differ, the changed value is set and one of the
    two is no mapping. *)
Lemma reconciled_cases (dv : value) (cur : option value) :
  (dv = default VNull cur ∧ reconciled dv cur = cur)
  ∨ (dv ≠ VNull ∧ default VNull cur = VNull ∧ reconciled dv cur = Some dv)
  ∨ (∃ dm cm, dv = VMap dm ∧ cur = Some (VMap cm) ∧ dm ≠ cm
              ∧ reconciled dv cur = Some (VMap (merged dm cm)))
  ∨ (dv ≠ default VNull cur ∧ default VNull cur ≠ VNull
     ∧ (isMap dv = false ∨ isMap (default VNull cur) = false)
     ∧ reconciled dv cur = cur).
Proof.
  destruct (DeepEqual dv (default VNull cur)) eqn:Heq.
  { left. apply DeepEqual_eq in Heq. split; [done|].
    by apply reconciled_equal. }
  right. pose proof Heq as Hne. apply DeepEqual_neq in Hne.
  destruct (isMap dv) eqn:Hmap.
  - destruct dv as [| | | | |dm]; try discriminate.
    rewrite reconciled_VMap, Heq.
    destruct (default VNull cur) as [| | | | |cm] eqn:Hcv.
    1: left; done.
    5: { right; left. exists dm, cm. split_and!; try done.
         - destruct cur; simpl in Hcv; by subst.
         - congruence. }
    all: right; right; split_and!; auto; done.
  - rewrite reconciled_other, Heq by done.
    destruct (default VNull cur) eqn:Hcv.
    1: left; split_and!; [congruence|done..].
    all: right; right; split_and!; auto; done.
Qed.

Lemma default_VNull_Some (cur : option value) :
  default VNull cur ≠ VNull → cur = Some (default VNull cur).
Proof. by destruct cur. Qed.

Lemma reconciled_is_Some (dv : value) (cur : option value) :
  is_Some (reconciled dv cur) ↔ dv ≠ VNull ∨ is_Some cur.
Proof.
  destruct (reconciled_cases dv cur)
    as [[Heq ->]|[(Hdv & Hcv & ->)|[(dm & cm & -> & -> & _ & ->)|(_ & Hcv & _ & ->)]]].
  - split; [by right|]. intros [Hdv|Hcur]; [|done].
    subst dv. apply default_VNull_Some in Hdv. by rewrite Hdv.
  - split; [by left|done].
  - split; [by left|done].
  - apply default_VNull_Some in Hcv. rewrite Hcv. split; [by right|done].
Qed.

Lemma merged_self (d : document) : merged d d = d.
Proof.
  apply map_eq. intros k. rewrite lookup_merged.
  destruct (d !! k) as [dv|] eqn:Hk; [|done]. by apply reconciled_equal.
Qed.

Lemma reconciled_idempotent (dv : value) (cur : option value) :
  reconciled dv (reconciled dv cur) = reconciled dv cur.
Proof.
  revert cur. induction dv as [| | | | |dm IH] using value_nested_ind;
    intros cur;
    match goal with
    | |- reconciled ?v _ = _ =>
        destruct (reconciled_cases v cur)
          as [[_ Hr]|[(_ & _ & Hr)
             |[(dm' & cm & Hdv & -> & _ & Hr)|(_ & _ & _ & Hr)]]]
    end;
    try discriminate Hdv;
    try (by rewrite !Hr);
    try (by rewrite Hr; apply reconciled_equal).
  injection Hdv as <-. rewrite Hr.
  destruct (reconciled_cases (VMap dm) (Some (VMap (merged dm cm))))
    as [[_ Hr']|[(_ & Hcv & _)
       |[(dm' & cm' & Hdv & Hcm & _ & Hr')|(_ & _ & _ & Hr')]]];
    [done|discriminate Hcv| |done].
  injection Hdv as <-. injection Hcm as <-.
  rewrite Hr'. do 2 f_equal.
  apply map_eq. intros k. rewrite !lookup_merged.
  destruct (dm !! k) as [dv|] eqn:Hk; [|done]. simpl. by apply (IH k dv).
Qed.

Lemma merged_idempotent (d c : document) : merged d (merged d c) = merged d c.
Proof.
  apply map_eq. intros k. rewrite !lookup_merged.
  destruct (d !! k); [|done]. apply reconciled_idempotent.
Qed.

(** ** Paths through the merged document *)

Lemma getPath_isMap (ks : list string) (v : value) (m : document) :
  getPath ks v = Some (VMap m) → isMap v = true.
Proof. destruct ks; simpl; [by intros [= ->]|by destruct v]. Qed.

Lemma getPath_VNull (ks : list string) (v : value) :
  getPath ks VNull = Some v → ks = [] ∧ v = VNull.
Proof. destruct ks; simpl; [by intros [= <-]|done]. Qed.

(** A place of the changed document that the default document does not
    have keeps its value. *)
Lemma merged_frame (p : list string) (d c : document) (v : value) :
  getPath p (VMap c) = Some v →
  getPath p (VMap d) = None →
  getPath p (VMap (merged d c)) = Some v.
Proof.
  revert d c. induction p as [|k p IH]; intros d c; [done|]. simpl.
  intros (cv & Hc & Hv)%bind_Some Hd. rewrite lookup_merged, Hc.
  destruct (d !! k) as [dv|] eqn:Hdk; simpl; [|done]. simpl in Hd.
  destruct (reconciled_cases dv (Some cv))
    as [[_ ->]|[(_ & Hcv & _)
       |[(dm & cm & -> & [= ->] & _ & ->)|(_ & _ & _ & ->)]]]; simpl; try done.
  - simpl in Hcv. subst cv. apply getPath_VNull in Hv as [-> _]. done.
  - destruct p as [|k' p]; [done|]. by apply IH.
Qed.

(** A key of a default mapping that is reconciled against a changed
    mapping is in the result exactly when its default is not null or the
    changed mapping has the key. *)
Lemma merged_covers (ks : list string) (d c dm cm : document) (k : string)
    (dv : value) :
  getPath ks (VMap d) = Some (VMap dm) →
  getPath ks (VMap c) = Some (VMap cm) →
  dm !! k = Some dv →
  ∃ rm, getPath ks (VMap (merged d c)) = Some (VMap rm)
        ∧ (is_Some (rm !! k) ↔ dv ≠ VNull ∨ is_Some (cm !! k)).
Proof.
  revert d c. induction ks as [|k0 ks IH]; intros d c; simpl.
  - intros [= ->] [= ->] Hk. exists (merged dm cm). split; [done|].
    rewrite lookup_merged, Hk. apply reconciled_is_Some.
  - intros (dv0 & Hd & Hdm)%bind_Some (cv0 & Hc & Hcm)%bind_Some Hk.
    rewrite lookup_merged, Hd, Hc. simpl.
    pose proof (getPath_isMap _ _ _ Hdm) as Hmd.
    pose proof (getPath_isMap _ _ _ Hcm) as Hmc.
    destruct (reconciled_cases dv0 (Some cv0))
      as [[Heq ->]|[(_ & Hcv & _)
         |[(dm0 & cm0 & -> & [= ->] & _ & ->)|(_ & _ & [Hm|Hm] & _)]]];
      simpl in *.
    + subst cv0. exists cm. split; [done|].
      assert (dm = cm) as -> by congruence. rewrite Hk. split; eauto.
    + subst cv0. done.
    + by apply IH.
    + congruence.
    + congruence.
Qed.

(** ** [MergeCR] on documents that decode *)

Lemma MergeCR_nonempty (Unmarshal : list Byte.byte → unmarshalled)
    (defaultCR changedCR : list Byte.byte) :
  defaultCR ≠ [] → changedCR ≠ [] →
  MergeCR Unmarshal defaultCR changedCR
  = mergeKeys (decoded Unmarshal defaultCR) (decoded Unmarshal changedCR).
Proof. intros Hd Hc. by destruct defaultCR, changedCR. Qed.

Lemma MergeCR_empty_changed (Unmarshal : list Byte.byte → unmarshalled)
    (defaultCR : list Byte.byte) :
  defaultCR ≠ [] →
  MergeCR Unmarshal defaultCR [] = Done (decoded Unmarshal defaultCR).
Proof. by destruct defaultCR. Qed.

Lemma MergeCR_empty_default (Unmarshal : list Byte.byte → unmarshalled)
    (changedCR : list Byte.byte) :
  changedCR ≠ [] →
  MergeCR Unmarshal [] changedCR = Done (decoded Unmarshal changedCR).
Proof. by destruct changedCR. Qed.

Lemma decoded_succeeded (Unmarshal : list Byte.byte → unmarshalled)
    (data : list Byte.byte) (m : gomap) :
  Unmarshal data = succeeded m → decoded Unmarshal data = m.
Proof. unfold decoded. by intros ->. Qed.

(** The empty input is a syntax error, so a text that decodes is not
    empty. *)
Lemma succeeded_nonempty (Unmarshal : list Byte.byte → unmarshalled)
    (data : list Byte.byte) (m : gomap) :
  Unmarshal [] = untouched → Unmarshal data = succeeded m → data ≠ [].
Proof. intros Hnil Hdata ->. by rewrite Hnil in Hdata. Qed.

Lemma MergeCR_decoded (Unmarshal : list Byte.byte → unmarshalled)
    (defaultCR changedCR : list Byte.byte) (d : gomap) (c : document) :
  Unmarshal [] = untouched →
  Unmarshal defaultCR = succeeded d →
  Unmarshal changedCR = succeeded (GoMap c) →
  MergeCR Unmarshal defaultCR changedCR
  = Done (GoMap (merged (entries d) c)).
Proof.
  intros Hnil Hd Hc.
  rewrite MergeCR_nonempty by eauto using succeeded_nonempty.
  by rewrite (decoded_succeeded _ _ _ Hd), (decoded_succeeded _ _ _ Hc),
    mergeKeys_merged.
Qed.

(** Both maps as they are given to the loop: the loop ends without a
    panic, or in the panic of a write into a nil map. *)
Lemma mergeKeys_outcome (d c : gomap) :
  (∃ r, mergeKeys d c = Done r) ∨ mergeKeys d c = Panic AssignToNilMap.
Proof.
  destruct c as [|c].
  - rewrite mergeKeys_NilMap. case_bool_decide; eauto.
  - rewrite mergeKeys_merged. eauto.
Qed.

Lemma mergeKeys_self (d : gomap) : mergeKeys d d = Done d.
Proof.
  destruct d as [|d].
  - rewrite mergeKeys_NilMap. rewrite bool_decide_eq_true_2; [done|].
    apply map_Forall_empty.
  - rewrite mergeKeys_merged. simpl. by rewrite merged_self.
Qed.

Lemma getPath_empty (p : list string) (v : value) :
  getPath p (VMap ∅) = Some v → p = [] ∧ v = VMap ∅.
Proof.
  destruct p as [|k p]; simpl; [by intros [= <-]|].
  by rewrite lookup_empty.
Qed.

(** ** Claims about [MergeCR] *)

(** C1, as stated, fails: the default document [{"a":null}] has the key
    ["a"], both documents decode, and the result of merging it into [{}]
    has no key ["a"]. *)
Lemma MergeCR_null_default_not_covered :
  sampleUnmarshal (jsonText "{'a':null}")
  = succeeded (GoMap {[ "a" := VNull ]})
  ∧ sampleUnmarshal (jsonText "{}") = succeeded (GoMap ∅)
  ∧ ∃ r, MergeCR sampleUnmarshal (jsonText "{'a':null}") (jsonText "{}")
         = Done r
         ∧ entries r !! "a" = None.
Proof.
  split; [by vm_compute|]. split; [by vm_compute|].
  exists (GoMap ∅). split; by vm_compute.
Qed.

(** C1, amended: when both documents decode, the changed one to a map
    that is not nil, a key [k] of the default document, at top level
    ([ks = []]) or in a default sub-mapping [dm] that is reconciled against
    a changed sub-mapping [cm] at the same place [ks], is present in the
    mapping returned by [MergeCR] exactly when its default value is not
    null or [cm] already has the key. *)
Theorem MergeCR_key_coverage (Unmarshal : list Byte.byte → unmarshalled)
    (defaultCR changedCR : list Byte.byte) (d : gomap) (c : document)
    (ks : list string) (dm cm : document) (k : string) (dv : value) :
  Unmarshal [] = untouched →
  Unmarshal defaultCR = succeeded d →
  Unmarshal changedCR = succeeded (GoMap c) →
  getPath ks (VMap (entries d)) = Some (VMap dm) →
  getPath ks (VMap c) = Some (VMap cm) →
  dm !! k = Some dv →
  ∃ r rm, MergeCR Unmarshal defaultCR changedCR = Done (GoMap r)
          ∧ getPath ks (VMap r) = Some (VMap rm)
          ∧ (is_Some (rm !! k) ↔ dv ≠ VNull ∨ is_Some (cm !! k)).
Proof.
  intros Hnil Hd Hc Hdm Hcm Hk.
  destruct (merged_covers ks (entries d) c dm cm k dv Hdm Hcm Hk)
    as (rm & Hrm & Hiff).
  exists (merged (entries d) c), rm. split; [|done].
  by apply MergeCR_decoded.
Qed.

Lemma MergeCR_key_coverage_witness :
  ∃ r rm,
    MergeCR sampleUnmarshal (jsonText "{'a':{'x':1,'y':2}}")
            (jsonText "{'a':{'x':9,'z':[true]}}") = Done (GoMap r)
    ∧ getPath ["a"] (VMap r) = Some (VMap rm)
    ∧ is_Some (rm !! "y").
Proof.
  destruct (MergeCR_key_coverage sampleUnmarshal
              (jsonText "{'a':{'x':1,'y':2}}")
              (jsonText "{'a':{'x':9,'z':[true]}}")
              (GoMap {[ "a" := VMap {[ "x" := num 1; "y" := num 2 ]} ]})
              {[ "a" := VMap {[ "x" := num 9; "z" := VArr [VBool true] ]} ]}
              ["a"] {[ "x" := num 1; "y" := num 2 ]}
              {[ "x" := num 9; "z" := VArr [VBool true] ]} "y" (num 2))
    as (r & rm & Hr & Hrm & Hiff);
    [vm_compute; reflexivity..|].
  exists r, rm. split; [exact Hr|]. split; [exact Hrm|].
  apply Hiff. left. discriminate.
Defined.

(** When the changed text decodes to a map that is not nil, what C5 says
    holds: for a key [k] of the default document, (a) a changed value at
    [k] that is present, not null and no mapping is the value of the result
    at [k]; (b) when the changed value at [k] is missing or null and the
    default value is not null, the result has the default value at [k]. *)
Lemma MergeCR_non_overwrite_gap_fill
    (Unmarshal : list Byte.byte → unmarshalled)
    (defaultCR changedCR : list Byte.byte) (d : gomap) (c : document)
    (k : string) (dv : value) :
  Unmarshal [] = untouched →
  Unmarshal defaultCR = succeeded d →
  Unmarshal changedCR = succeeded (GoMap c) →
  entries d !! k = Some dv →
  ∃ r, MergeCR Unmarshal defaultCR changedCR = Done (GoMap r)
       ∧ (∀ cv, c !! k = Some cv → cv ≠ VNull → isMap cv = false →
                r !! k = Some cv)
       ∧ (c !! k = None ∨ c !! k = Some VNull → dv ≠ VNull →
          r !! k = Some dv).
Proof.
  intros Hnil Hd Hc Hk. exists (merged (entries d) c).
  split; [by apply MergeCR_decoded|].
  rewrite lookup_merged, Hk. simpl. split.
  - intros cv -> Hcv Hmap.
    destruct (reconciled_cases dv (Some cv))
      as [[_ ->]|[(_ & Hnull & _)
         |[(dm & cm & _ & [= ->] & _)|(_ & _ & _ & ->)]]]; done.
  - intros Hck Hdv.
    destruct (reconciled_cases dv (c !! k))
      as [[Heq _]|[(_ & _ & ->)
         |[(dm & cm & _ & Hcm & _)|(_ & Hnull & _)]]]; try done.
    all: destruct Hck as [Hck|Hck]; rewrite Hck in *; simpl in *; congruence.
Qed.

(** C5, at the input where the code departs from it: the changed text
    [null] decodes without an error and leaves a nil map; the default
    document [{"a":5}] has the key ["a"] with a value that is not null and
    the changed document has no value for it, yet [MergeCR] does not
    return a mapping with [5] at ["a"]: the write of line 78 panics. *)
Theorem MergeCR_null_changed_panics :
  sampleUnmarshal (jsonText "{'a':5}") = succeeded (GoMap {[ "a" := num 5 ]})
  ∧ sampleUnmarshal (jsonText "null") = succeeded NilMap
  ∧ mapaccess NilMap "a" = VNull
  ∧ MergeCR sampleUnmarshal (jsonText "{'a':5}") (jsonText "null")
    = Panic AssignToNilMap.
Proof. by vm_compute. Qed.

(** C6: merging is idempotent.  Whenever [MergeCR] returns a mapping [r],
    as it does whenever the changed text does not leave a nil map, then
    for every text that decodes to [r], merging the same default document
    into that text returns [r] again. *)
Theorem MergeCR_idempotent (Unmarshal : list Byte.byte → unmarshalled)
    (defaultCR changedCR : list Byte.byte) :
  Unmarshal [] = untouched →
  (decoded Unmarshal changedCR ≠ NilMap →
   ∃ r, MergeCR Unmarshal defaultCR changedCR = Done r)
  ∧ ∀ r, MergeCR Unmarshal defaultCR changedCR = Done r →
         ∀ mergedCR, Unmarshal mergedCR = succeeded r →
                     MergeCR Unmarshal defaultCR mergedCR = Done r.
Proof.
  intros Hnil. split.
  - intros Hc. unfold MergeCR.
    destruct defaultCR, changedCR; simpl; eauto.
    destruct (decoded Unmarshal (b0 :: changedCR)) as [|c]; [done|].
    rewrite mergeKeys_merged. eauto.
  - intros r Hr M HM.
    pose proof (succeeded_nonempty _ _ _ Hnil HM) as HMne.
    pose proof (decoded_succeeded _ _ _ HM) as HMr.
    destruct defaultCR as [|b0 D].
    + by rewrite MergeCR_empty_default, HMr.
    + rewrite MergeCR_nonempty, HMr by done.
      destruct changedCR as [|b1 C].
      * injection Hr as <-. apply mergeKeys_self.
      * rewrite MergeCR_nonempty in Hr by done.
        destruct (decoded Unmarshal (b1 :: C)) as [|c].
        -- rewrite mergeKeys_NilMap in Hr. case_bool_decide; [|done].
           injection Hr as <-. rewrite mergeKeys_NilMap.
           by rewrite bool_decide_eq_true_2.
        -- rewrite mergeKeys_merged in Hr. injection Hr as <-.
           by rewrite mergeKeys_merged, merged_idempotent.
Qed.

Lemma MergeCR_idempotent_witness :
  MergeCR sampleUnmarshal (jsonText "{'a':{'x':1,'y':2}}")
          (jsonText "{'a':{'x':9,'y':2,'z':[true]}}")
  = MergeCR sampleUnmarshal (jsonText "{'a':{'x':1,'y':2}}")
            (jsonText "{'a':{'x':9,'z':[true]}}").
Proof.
  destruct (MergeCR_idempotent sampleUnmarshal
              (jsonText "{'a':{'x':1,'y':2}}")
              (jsonText "{'a':{'x':9,'z':[true]}}"))
    as [Hreturns Hagain]; [vm_compute; reflexivity|].
  destruct Hreturns as [r Hr]; [vm_compute; discriminate|].
  rewrite Hr. apply (Hagain r Hr).
  assert (MergeCR sampleUnmarshal (jsonText "{'a':{'x':1,'y':2}}")
            (jsonText "{'a':{'x':9,'z':[true]}}")
          = Done (decodedMap
                    (sampleUnmarshal
                       (jsonText "{'a':{'x':9,'y':2,'z':[true]}}"))))
    as Heval by (vm_compute; reflexivity).
  rewrite Heval in Hr. injection Hr as <-. vm_compute. reflexivity.
Defined.

(** C7: when both documents decode, a key that only the changed document
    has, at top level or inside a nested changed mapping, that is, a place
    [p] of the changed document that is no place of the default document,
    has in the result of [MergeCR] the value it has in the changed
    document. *)
Theorem MergeCR_frame (Unmarshal : list Byte.byte → unmarshalled)
    (defaultCR changedCR : list Byte.byte) (d c : gomap)
    (p : list string) (v : value) :
  Unmarshal [] = untouched →
  Unmarshal defaultCR = succeeded d →
  Unmarshal changedCR = succeeded c →
  getPath p (VMap (entries c)) = Some v →
  getPath p (VMap (entries d)) = None →
  ∃ r, MergeCR Unmarshal defaultCR changedCR = Done r
       ∧ getPath p (VMap (entries r)) = Some v.
Proof.
  intros Hnil Hd Hc Hv Hnone. destruct c as [|c].
  { apply getPath_empty in Hv as [-> _]. done. }
  exists (GoMap (merged (entries d) c)).
  split; [by apply MergeCR_decoded|by apply merged_frame].
Qed.

Lemma MergeCR_frame_witness :
  ∃ r, MergeCR sampleUnmarshal (jsonText "{'a':{'x':1,'y':2}}")
               (jsonText "{'a':{'x':9,'z':[true]}}") = Done r
       ∧ getPath ["a"; "z"] (VMap (entries r)) = Some (VArr [VBool true]).
Proof.
  apply (MergeCR_frame sampleUnmarshal
           (jsonText "{'a':{'x':1,'y':2}}")
           (jsonText "{'a':{'x':9,'z':[true]}}")
           (GoMap {[ "a" := VMap {[ "x" := num 1; "y" := num 2 ]} ]})
           (GoMap {[ "a" := VMap {[ "x" := num 9;
                                    "z" := VArr [VBool true] ]} ]})
           ["a"; "z"] (VArr [VBool true]));
    vm_compute; reflexivity.
Defined.

(** The guard of the embedding is a real one: called with a [finalMap]
    whose entry at [key] is not the changed mapping, the assertion of line
    72 fails. *)
Lemma checkKeyBeforeMerging_panics_elsewhere :
  checkKeyBeforeMerging "a" (VMap {[ "x" := num 1 ]}) (VMap ∅) (GoMap ∅)
  = Panic InterfaceConversion.
Proof. by vm_compute. Qed.

(** C8: the type assertion of line 72 never fails, neither in a run of
    [MergeCR] nor in a call of [checkKeyBeforeMerging] whose [changedMap]
    is [finalMap[key]], the relation that line 56 sets up and that line 72
    keeps.  When such a call takes the mapping branch (default and changed
    value are mappings that differ), [finalMap] is not nil and
    [finalMap[key]] is the changed mapping, so the assertion holds, and the
    call ends with a mapping at [key].  (The other panic of merge.go, the
    write into a nil map, is not excluded: see C5.) *)
Theorem checkKeyBeforeMerging_assertion_holds
    (Unmarshal : list Byte.byte → unmarshalled)
    (defaultCR changedCR : list Byte.byte)
    (key : string) (dv cv : value) (fm : gomap) :
  MergeCR Unmarshal defaultCR changedCR ≠ Panic InterfaceConversion
  ∧ (mapaccess fm key = cv →
     checkKeyBeforeMerging key dv cv fm ≠ Panic InterfaceConversion
     ∧ ∀ dm cm, dv = VMap dm → cv = VMap cm → dm ≠ cm →
         (∃ fm0, fm = GoMap fm0 ∧ fm0 !! key = Some (VMap cm))
         ∧ ∃ rm, checkKeyBeforeMerging key dv cv fm
                 = Done (GoMap (<[key := VMap rm]> (entries fm)))).
Proof.
  split.
  { unfold MergeCR. destruct defaultCR, changedCR; simpl; try done.
    destruct (mergeKeys_outcome (decoded Unmarshal (b :: defaultCR))
                (decoded Unmarshal (b0 :: changedCR))) as [[r ->]| ->]; done. }
  intros <-. destruct fm as [|fm].
  { rewrite checkKeyBeforeMerging_NilMap.
    split; [by destruct (DeepEqual dv VNull)|]. by intros dm cm _ [=]. }
  change (mapaccess (GoMap fm) key) with (lookupNil fm key).
  rewrite checkKeyBeforeMerging_reconciled. split; [done|].
  intros dm cm -> Hcv Hne.
  assert (fm !! key = Some (VMap cm)) as Hk.
  { unfold lookupNil in Hcv. destruct (fm !! key); simpl in Hcv; by subst. }
  split; [eauto|]. exists (merged dm cm). cbn [entries]. do 2 f_equal.
  apply partial_alter_store. rewrite Hk.
  destruct (reconciled_cases (VMap dm) (Some (VMap cm)))
    as [[Heq _]|[(_ & Hnull & _)
       |[(dm' & cm' & [= <-] & [= <-] & _ & ->)|(_ & _ & [Hm|Hm] & _)]]];
    simpl in *; congruence.
Qed.

Lemma checkKeyBeforeMerging_assertion_holds_witness :
  ∃ rm, checkKeyBeforeMerging "a" (VMap {[ "x" := num 1; "y" := num 2 ]})
          (VMap {[ "x" := num 9 ]})
          (GoMap {[ "a" := VMap {[ "x" := num 9 ]} ]})
        = Done (GoMap {[ "a" := VMap rm ]}).
Proof.
  destruct (checkKeyBeforeMerging_assertion_holds sampleUnmarshal [] [] "a"
              (VMap {[ "x" := num 1; "y" := num 2 ]})
              (VMap {[ "x" := num 9 ]})
              (GoMap {[ "a" := VMap {[ "x" := num 9 ]} ]})) as [_ Hcall].
  assert (mapaccess (GoMap {[ "a" := VMap {[ "x" := num 9 ]} ]}) "a"
          = VMap {[ "x" := num 9 ]}) as Hinv by (vm_compute; reflexivity).
  destruct (Hcall Hinv) as [_ Hbranch].
  assert (({[ "x" := num 1; "y" := num 2 ]} : document) ≠ {[ "x" := num 9 ]})
    as Hne.
  { intros Heq. apply (f_equal (lookup "y")) in Heq. vm_compute in Heq.
    discriminate Heq. }
  destruct (Hbranch _ _ eq_refl eq_refl Hne) as [_ [rm Hrm]].
  exists rm. rewrite Hrm. simpl. rewrite insert_singleton_eq. reflexivity.
Defined.

(** C9: with two empty inputs [MergeCR] returns an empty mapping; with
    one empty input it returns the decoding of the other one, and no key
    is reconciled. *)
Theorem MergeCR_empty_inputs (Unmarshal : list Byte.byte → unmarshalled)
    (defaultCR changedCR : list Byte.byte) :
  MergeCR Unmarshal [] [] = Done (GoMap ∅)
  ∧ (defaultCR ≠ [] →
     MergeCR Unmarshal defaultCR [] = Done (decoded Unmarshal defaultCR))
  ∧ (changedCR ≠ [] →
     MergeCR Unmarshal [] changedCR = Done (decoded Unmarshal changedCR)).
Proof.
  split; [done|]. split.
  - apply MergeCR_empty_changed.
  - apply MergeCR_empty_default.
Qed.

Lemma MergeCR_empty_inputs_witness :
  MergeCR sampleUnmarshal (jsonText "{'a':null}") []
  = Done (GoMap {[ "a" := VNull ]})
  ∧ MergeCR sampleUnmarshal [] (jsonText "{'b':7}")
    = Done (GoMap {[ "b" := num 7 ]}).
Proof.
  destruct (MergeCR_empty_inputs sampleUnmarshal
              (jsonText "{'a':null}") (jsonText "{'b':7}"))
    as (_ & Hd & Hc).
  split.
  - rewrite Hd; [vm_compute; reflexivity|discriminate].
  - rewrite Hc; [vm_compute; reflexivity|discriminate].
Defined.

(** C10: a document merged with itself is returned as it decodes: every
    key of the default meets a deeply equal changed value, and the call
    for it leaves the mapping as it is. *)
Theorem MergeCR_self (Unmarshal : list Byte.byte → unmarshalled)
    (doc : list Byte.byte) :
  Unmarshal [] = untouched →
  MergeCR Unmarshal doc doc = Done (decoded Unmarshal doc)
  ∧ ∀ k dv, entries (decoded Unmarshal doc) !! k = Some dv →
      DeepEqual dv (mapaccess (decoded Unmarshal doc) k) = true
      ∧ checkKeyBeforeMerging k dv (mapaccess (decoded Unmarshal doc) k)
          (decoded Unmarshal doc)
        = Done (decoded Unmarshal doc).
Proof.
  intros Hnil. split.
  - destruct doc as [|b doc].
    + unfold MergeCR, decoded. simpl. by rewrite Hnil.
    + rewrite MergeCR_nonempty by done. apply mergeKeys_self.
  - intros k dv Hk. unfold mapaccess, lookupNil. rewrite Hk. simpl.
    assert (DeepEqual dv dv = true) as Heq by apply DeepEqual_refl.
    split; [done|].
    destruct dv; simpl in *; by rewrite ?Heq.
Qed.

Lemma MergeCR_self_witness :
  MergeCR sampleUnmarshal (jsonText "{'a':{'x':1,'y':2}}")
          (jsonText "{'a':{'x':1,'y':2}}")
  = Done (GoMap {[ "a" := VMap {[ "x" := num 1; "y" := num 2 ]} ]}).
Proof.
  destruct (MergeCR_self sampleUnmarshal (jsonText "{'a':{'x':1,'y':2}}"))
    as [Hself _]; [vm_compute; reflexivity|].
  rewrite Hself. vm_compute. reflexivity.
Defined.

(** ** Facts about [CompareChannelVersion] *)

Lemma Cut_not_found (s : string) (sep : ascii) :
  (Cut s sep).2 = false → Cut s sep = (s, EmptyString, false).
Proof.
  induction s as [|c s IH]; simpl; [done|].
  destruct (bool_decide (c = sep)); [done|].
  destruct (Cut s sep) as [[before after] found]. by destruct found.
Qed.

Lemma Atoi_error_Num (s : string) (e : NumError) :
  Atoi s = inr e → Num e = s.
Proof. unfold Atoi. destruct (parseInt s); by intros [= <-]. Qed.

(** The loop reads [v2Slice] at the indices of [v1Slice] only. *)
Lemma compareFrom_agree (rest : list string) (index : nat)
    (l2 l2' : list string) :
  (∀ i, index ≤ i < index + length rest → l2 !! i = l2' !! i) →
  compareFrom index rest l2 = compareFrom index rest l2'.
Proof.
  revert index. induction rest as [|c1 rest IH]; intros index Hagree; [done|].
  simpl in *. destruct (Atoi c1) as [n1|e1]; [|done].
  rewrite <- (Hagree index) by lia.
  destruct (l2 !! index) as [c2|]; [|done].
  destruct (Atoi c2) as [n2|e2]; [|done].
  destruct (n1 >? n2)%Z; [done|]. destruct (n1 =? n2)%Z; [|done].
  apply IH. intros i Hi. apply Hagree. lia.
Qed.

Lemma compareFrom_returns (rest : list string) (index : nat)
    (l2 : list string) :
  (index + length rest ≤ length l2)%nat →
  ∃ b e, compareFrom index rest l2 = Returns b e.
Proof.
  revert index. induction rest as [|c1 rest IH]; intros index Hlen; simpl in *.
  { eauto. }
  destruct (Atoi c1) as [n1|e1]; [|eauto].
  destruct (lookup_lt_is_Some_2 l2 index) as [c2 ->]; [lia|].
  destruct (Atoi c2) as [n2|e2]; [|eauto].
  destruct (n1 >? n2)%Z; [eauto|]. destruct (n1 =? n2)%Z; [|eauto].
  apply IH. lia.
Qed.

(** The first component that does not parse, all components before it
    having compared equal, ends the loop with its error. *)
Lemma compareFrom_error (i : nat) (rest : list string) (index : nat)
    (l2 : list string) (c : string) (e : NumError) :
  (∀ j, j < i → ∃ n c1 c2, rest !! j = Some c1 ∧ l2 !! (index + j) = Some c2
                           ∧ Atoi c1 = inl n ∧ Atoi c2 = inl n) →
  Atoi c = inr e →
  rest !! i = Some c
  ∨ (∃ c1 n, rest !! i = Some c1 ∧ Atoi c1 = inl n
             ∧ l2 !! (index + i) = Some c) →
  compareFrom index rest l2 = Returns false (Some e).
Proof.
  revert rest index.
  induction i as [|i IH]; intros rest index Hbefore He Hhere.
  - destruct Hhere as [Hc|(c1 & n & Hc1 & Hn & Hc)].
    + destruct rest as [|c0 rest]; [done|]. injection Hc as ->.
      simpl. by rewrite He.
    + destruct rest as [|c0 rest]; [done|]. injection Hc1 as ->.
      simpl. rewrite Hn. rewrite Nat.add_0_r in Hc. by rewrite Hc, He.
  - destruct (Hbefore 0) as (n & c1 & c2 & Hc1 & Hc2 & Hn1 & Hn2); [lia|].
    destruct rest as [|c0 rest]; [done|]. injection Hc1 as ->.
    rewrite Nat.add_0_r in Hc2. simpl. rewrite Hn1, Hc2, Hn2.
    assert ((n >? n)%Z = false) as -> by lia.
    rewrite Z.eqb_refl. apply IH; [|done|].
    + intros j Hj. destruct (Hbefore (S j)) as (m & d1 & d2 & H1 & H2 & H3);
        [lia|]. exists m, d1, d2.
      replace (S index + j) with (index + S j) by lia. done.
    + replace (S index + i) with (index + S i) by lia. done.
Qed.

(** When the second name holds no [v], line 153 resets [v1Cut] and leaves
    [v2Cut] empty: the lists are [["0"; "0"]] and [[""; "0"]] whatever the
    first name is, and the call returns the error of [Atoi("")]. *)
Lemma CompareChannelVersion_second_without_v (v1 v2 : string) :
  (Cut v2 "v").2 = false →
  channelSlices v1 v2 = (["0"; "0"], [""; "0"])
  ∧ CompareChannelVersion v1 v2
    = Returns false (Some {| Num := ""; Err := ErrSyntax |}).
Proof.
  intros Hcut. apply Cut_not_found in Hcut.
  assert (channelSlices v1 v2 = (["0"; "0"], [""; "0"])) as Hslices.
  { unfold channelSlices. rewrite Hcut.
    by destruct (Cut v1 "v") as [[before after] found]. }
  split; [done|]. unfold CompareChannelVersion. by rewrite Hslices.
Qed.

(** ** Claims about [CompareChannelVersion] *)

(** C2, at the input where the code departs from it: for ["v1.0"] against
    ["abc"] the second name holds no [v], yet it is the first remainder
    that becomes ["0.0"] while the second becomes [".0"]; the call returns
    the syntax error of [Atoi("")] and not the comparison of [1.0] with
    [0.0].  The other way round, ["abc"] against ["v1.0"], the call
    returns [false] without an error. *)
Theorem CompareChannelVersion_v2_default_misassigned :
  channelSlices "v1.0" "abc" = (["0"; "0"], [""; "0"])
  ∧ CompareChannelVersion "v1.0" "abc"
    = Returns false (Some {| Num := ""; Err := ErrSyntax |})
  ∧ compareFrom 0 ["1"; "0"] ["0"; "0"] = Returns true None
  ∧ CompareChannelVersion "abc" "v1.0" = Returns false None.
Proof. by vm_compute. Qed.

(** C3: the loop runs over the components of the first name.  When the
    list of the second name is at least as long, the call returns (it does
    not panic) and its result is that of the loop on the second list cut
    to the length of the first, so further components of the second name
    are ignored.  And there are names, ["v1.0.1"] and ["v1.0"], where the
    second list is strictly shorter and equal to the first as far as it
    goes, for which the loop indexes the second list past its end. *)
Theorem CompareChannelVersion_driven_by_v1 (v1 v2 : string)
    (v1Slice v2Slice : list string) :
  (channelSlices v1 v2 = (v1Slice, v2Slice) →
   (length v1Slice ≤ length v2Slice)%nat →
   (∃ b e, CompareChannelVersion v1 v2 = Returns b e)
   ∧ CompareChannelVersion v1 v2
     = compareFrom 0 v1Slice (take (length v1Slice) v2Slice)
   ∧ ∀ extra, compareFrom 0 v1Slice (v2Slice ++ extra)
              = CompareChannelVersion v1 v2)
  ∧ (∃ w1 w2 s1 s2,
       channelSlices w1 w2 = (s1, s2)
       ∧ length s2 < length s1
       ∧ take (length s2) s1 = s2
       ∧ CompareChannelVersion w1 w2 = Panics (length s2)).
Proof.
  split.
  - intros Hslices Hlen. unfold CompareChannelVersion. rewrite Hslices.
    split; [by apply compareFrom_returns|]. split.
    + apply compareFrom_agree. intros i Hi. simpl in Hi.
      rewrite lookup_take_lt; [done|lia].
    + intros extra. apply compareFrom_agree. intros i Hi. simpl in Hi.
      apply lookup_app_l. lia.
  - exists "v1.0.1", "v1.0", ["1"; "0"; "1"], ["1"; "0"].
    split; [by vm_compute|]. split; [simpl; lia|]. by vm_compute.
Qed.

Lemma CompareChannelVersion_driven_by_v1_witness :
  CompareChannelVersion "v1.2" "v1.10.7" = Returns false None
  ∧ compareFrom 0 ["1"; "2"] (["1"; "10"; "7"] ++ ["x"])
    = CompareChannelVersion "v1.2" "v1.10.7".
Proof.
  destruct (CompareChannelVersion_driven_by_v1 "v1.2" "v1.10.7"
              ["1"; "2"] ["1"; "10"; "7"]) as [Hlong _].
  destruct Hlong as (_ & Htake & Hextra);
    [vm_compute; reflexivity|simpl; lia|].
  split; [rewrite Htake; vm_compute; reflexivity|apply Hextra].
Defined.

(** The loop stops at the first difference: a component after it is not
    parsed, whatever it is. *)
Lemma CompareChannelVersion_skips_after_difference :
  CompareChannelVersion "v2.x" "v1.0" = Returns true None.
Proof. by vm_compute. Qed.

(** C4: a component that the loop compares and that is no integer makes
    the call return the parse error of that component, with [false] as its
    ordering result.  A component is compared when it stands at an index
    [i] of the first list, or of the second list with the first list's
    component at [i] an integer, and all components before [i] are
    integers equal in pairs.  ["v1.x"] against ["v1.0"] fails on ["x"]. *)
Theorem CompareChannelVersion_parse_error (v1 v2 : string)
    (v1Slice v2Slice : list string) (i : nat) (c : string) (e : NumError) :
  channelSlices v1 v2 = (v1Slice, v2Slice) →
  (∀ j, j < i → ∃ n c1 c2, v1Slice !! j = Some c1 ∧ v2Slice !! j = Some c2
                           ∧ Atoi c1 = inl n ∧ Atoi c2 = inl n) →
  Atoi c = inr e →
  v1Slice !! i = Some c
  ∨ (∃ c1 n, v1Slice !! i = Some c1 ∧ Atoi c1 = inl n
             ∧ v2Slice !! i = Some c) →
  CompareChannelVersion v1 v2 = Returns false (Some e)
  ∧ Num e = c
  ∧ CompareChannelVersion "v1.x" "v1.0"
    = Returns false (Some {| Num := "x"; Err := ErrSyntax |}).
Proof.
  intros Hslices Hbefore He Hhere.
  split; [|split; [by apply Atoi_error_Num|by vm_compute]].
  unfold CompareChannelVersion. rewrite Hslices.
  by apply (compareFrom_error i _ 0 _ c).
Qed.

Lemma CompareChannelVersion_parse_error_witness :
  CompareChannelVersion "v1.5" "v1.5-rc"
  = Returns false (Some {| Num := "5-rc"; Err := ErrSyntax |}).
Proof.
  apply (CompareChannelVersion_parse_error "v1.5" "v1.5-rc"
           ["1"; "5"] ["1"; "5-rc"] 1 "5-rc").
  - vm_compute. reflexivity.
  - intros j Hj. assert (j = 0) as -> by lia.
    exists 1%Z, "1", "1". vm_compute. auto.
  - vm_compute. reflexivity.
  - right. exists "5", 5%Z. vm_compute. auto.
Defined.

(** ** Further properties of [MergeCR] *)

Lemma getPath_app (ks : list string) (k : string) (v : value) :
  getPath (ks ++ [k]) v = getPath ks v ≫= getPath [k].
Proof.
  revert v. induction ks as [|k0 ks IH]; intros v; simpl.
  - by destruct v.
  - destruct v as [| | | | |m]; try done.
    destruct (m !! k0) as [v'|]; simpl; [apply IH|done].
Qed.

(** Where both documents have a mapping, the merged document has the merge
    of the two. *)
Lemma merged_descend (ks : list string) (d c dm cm : document) :
  getPath ks (VMap d) = Some (VMap dm) →
  getPath ks (VMap c) = Some (VMap cm) →
  getPath ks (VMap (merged d c)) = Some (VMap (merged dm cm)).
Proof.
  revert d c. induction ks as [|k0 ks IH]; intros d c; simpl.
  - by intros [= ->] [= ->].
  - intros (dv0 & Hd & Hdm)%bind_Some (cv0 & Hc & Hcm)%bind_Some.
    rewrite lookup_merged, Hd, Hc. simpl.
    pose proof (getPath_isMap _ _ _ Hdm) as Hmd.
    pose proof (getPath_isMap _ _ _ Hcm) as Hmc.
    destruct (reconciled_cases dv0 (Some cv0))
      as [[Heq ->]|[(_ & Hcv & _)
         |[(dm0 & cm0 & -> & [= ->] & _ & ->)|(_ & _ & [Hm|Hm] & _)]]];
      simpl in *.
    + subst cv0. assert (dm = cm) as -> by congruence.
      by rewrite merged_self.
    + subst cv0. done.
    + by apply IH.
    + congruence.
    + congruence.
Qed.

Lemma merged_keeps_leaf (p : list string) (d c : document) (v : value) :
  getPath p (VMap c) = Some v → v ≠ VNull → isMap v = false →
  getPath p (VMap (merged d c)) = Some v.
Proof.
  revert d c. induction p as [|k p IH]; intros d c; simpl.
  { by intros [= <-]. }
  intros (cv & Hc & Hv)%bind_Some Hnull Hmap. rewrite lookup_merged, Hc.
  destruct (d !! k) as [dv|] eqn:Hdk; simpl; [|done].
  destruct (reconciled_cases dv (Some cv))
    as [[_ ->]|[(_ & Hcv & _)
       |[(dm & cm & -> & [= ->] & _ & ->)|(_ & _ & _ & ->)]]]; simpl; try done.
  - simpl in Hcv. subst cv. by apply getPath_VNull in Hv as [_ ->].
  - by apply IH.
Qed.

(** X1: when both documents decode, a value that the changed document
    sets at any depth and that is neither null nor a mapping is in the
    result at the same place, whatever the default document holds there. *)
Theorem MergeCR_changed_leaf_kept
    (Unmarshal : list Byte.byte → unmarshalled)
    (defaultCR changedCR : list Byte.byte) (d c : gomap)
    (p : list string) (v : value) :
  Unmarshal [] = untouched →
  Unmarshal defaultCR = succeeded d →
  Unmarshal changedCR = succeeded c →
  getPath p (VMap (entries c)) = Some v →
  v ≠ VNull → isMap v = false →
  ∃ r, MergeCR Unmarshal defaultCR changedCR = Done r
       ∧ getPath p (VMap (entries r)) = Some v.
Proof.
  intros Hnil Hd Hc Hv Hnull Hmap. destruct c as [|c].
  { apply getPath_empty in Hv as [_ ->]. done. }
  exists (GoMap (merged (entries d) c)).
  split; [by apply MergeCR_decoded|by apply merged_keeps_leaf].
Qed.

Lemma MergeCR_changed_leaf_kept_witness :
  ∃ r, MergeCR sampleUnmarshal (jsonText "{'a':{'x':1,'y':2}}")
               (jsonText "{'a':{'x':9,'z':[true]}}") = Done r
       ∧ getPath ["a"; "x"] (VMap (entries r)) = Some (num 9).
Proof.
  apply (MergeCR_changed_leaf_kept sampleUnmarshal
           (jsonText "{'a':{'x':1,'y':2}}")
           (jsonText "{'a':{'x':9,'z':[true]}}")
           (GoMap {[ "a" := VMap {[ "x" := num 1; "y" := num 2 ]} ]})
           (GoMap {[ "a" := VMap {[ "x" := num 9;
                                    "z" := VArr [VBool true] ]} ]})
           ["a"; "x"] (num 9));
    first [discriminate | vm_compute; reflexivity].
Defined.

(** X2: when both documents decode, the changed one to a map that is not
    nil, and both have a mapping at a place [ks], a key of the default
    mapping there whose value is not null and which the changed mapping
    there lacks or sets to null has the default value in the result. *)
Theorem MergeCR_gap_filled_at_depth
    (Unmarshal : list Byte.byte → unmarshalled)
    (defaultCR changedCR : list Byte.byte) (d : gomap) (c : document)
    (ks : list string) (dm cm : document) (k : string) (dv : value) :
  Unmarshal [] = untouched →
  Unmarshal defaultCR = succeeded d →
  Unmarshal changedCR = succeeded (GoMap c) →
  getPath ks (VMap (entries d)) = Some (VMap dm) →
  getPath ks (VMap c) = Some (VMap cm) →
  dm !! k = Some dv → dv ≠ VNull →
  cm !! k = None ∨ cm !! k = Some VNull →
  ∃ r, MergeCR Unmarshal defaultCR changedCR = Done (GoMap r)
       ∧ getPath (ks ++ [k]) (VMap r) = Some dv.
Proof.
  intros Hnil Hd Hc Hdm Hcm Hk Hdv Hck. exists (merged (entries d) c).
  split; [by apply MergeCR_decoded|].
  rewrite getPath_app, (merged_descend ks (entries d) c dm cm Hdm Hcm). simpl.
  rewrite lookup_merged, Hk. simpl.
  destruct (reconciled_cases dv (cm !! k))
    as [[Heq _]|[(_ & _ & ->)
       |[(dm' & cm' & _ & Hcm' & _)|(_ & Hnull & _)]]]; try done.
  all: destruct Hck as [Hck|Hck]; rewrite Hck in *; simpl in *; congruence.
Qed.

Lemma MergeCR_gap_filled_at_depth_witness :
  ∃ r, MergeCR sampleUnmarshal (jsonText "{'a':{'x':1,'y':2}}")
               (jsonText "{'a':{'x':9,'z':[true]}}") = Done (GoMap r)
       ∧ getPath ["a"; "y"] (VMap r) = Some (num 2).
Proof.
  apply (MergeCR_gap_filled_at_depth sampleUnmarshal
           (jsonText "{'a':{'x':1,'y':2}}")
           (jsonText "{'a':{'x':9,'z':[true]}}")
           (GoMap {[ "a" := VMap {[ "x" := num 1; "y" := num 2 ]} ]})
           {[ "a" := VMap {[ "x" := num 9; "z" := VArr [VBool true] ]} ]}
           ["a"] {[ "x" := num 1; "y" := num 2 ]}
           {[ "x" := num 9; "z" := VArr [VBool true] ]} "y" (num 2));
    first [discriminate | left; vm_compute; reflexivity
          | vm_compute; reflexivity].
Defined.

(** X3: when both documents decode, the changed one to a map that is not
    nil, the keys of the result are the keys of the changed document and
    the keys of the default document whose value is not null: the merge
    drops no key of the changed document and makes up none. *)
Theorem MergeCR_result_keys (Unmarshal : list Byte.byte → unmarshalled)
    (defaultCR changedCR : list Byte.byte) (d : gomap) (c : document) :
  Unmarshal [] = untouched →
  Unmarshal defaultCR = succeeded d →
  Unmarshal changedCR = succeeded (GoMap c) →
  ∃ r, MergeCR Unmarshal defaultCR changedCR = Done (GoMap r)
       ∧ ∀ k, is_Some (r !! k)
              ↔ is_Some (c !! k)
                ∨ ∃ dv, entries d !! k = Some dv ∧ dv ≠ VNull.
Proof.
  intros Hnil Hd Hc. exists (merged (entries d) c).
  split; [by apply MergeCR_decoded|]. intros k. rewrite lookup_merged.
  destruct (entries d !! k) as [dv|] eqn:Hk; simpl.
  - rewrite reconciled_is_Some. split.
    + intros [Hdv|Hck]; [right; eauto|by left].
    + intros [Hck|(dv' & [= <-] & Hdv)]; [by right|by left].
  - split; [by left|]. by intros [Hck|(dv' & [=] & _)].
Qed.

Lemma MergeCR_result_keys_witness :
  ∃ r, MergeCR sampleUnmarshal (jsonText "{'a':5}") (jsonText "{'b':7}")
       = Done (GoMap r)
       ∧ is_Some (r !! "a") ∧ is_Some (r !! "b") ∧ r !! "c" = None.
Proof.
  destruct (MergeCR_result_keys sampleUnmarshal
              (jsonText "{'a':5}") (jsonText "{'b':7}")
              (GoMap {[ "a" := num 5 ]}) {[ "b" := num 7 ]})
    as (r & Hr & Hkeys); [vm_compute; reflexivity..|].
  exists r. split; [exact Hr|]. split; [|split].
  - apply Hkeys. right. exists (num 5). split; [vm_compute; reflexivity|].
    discriminate.
  - apply Hkeys. left. vm_compute. eauto.
  - apply eq_None_not_Some. intros [Hc|(dv & Hdv & _)]%Hkeys.
    + vm_compute in Hc. by destruct Hc.
    + vm_compute in Hdv. discriminate Hdv.
Defined.

(** X4: the result of [MergeCR] does not depend on the order in which
    [range] yields the keys of the default document: run over the keys in
    any order, the loop of lines 55-57 ends as [MergeCR] does, in the same
    mapping or in the same panic. *)
Theorem MergeCR_any_key_order (Unmarshal : list Byte.byte → unmarshalled)
    (defaultCR changedCR : list Byte.byte) (order : list (string * value)) :
  defaultCR ≠ [] → changedCR ≠ [] →
  order ≡ₚ map_to_list (entries (decoded Unmarshal defaultCR)) →
  mergeKeysIn order (decoded Unmarshal changedCR)
  = MergeCR Unmarshal defaultCR changedCR.
Proof.
  intros Hd Hc Hperm. rewrite MergeCR_nonempty by done.
  by apply mergeKeys_any_order.
Qed.

Lemma MergeCR_any_key_order_witness :
  mergeKeysIn [("b", num 7); ("a", num 5)]
    (decoded sampleUnmarshal (jsonText "{'a':{'x':1}}"))
  = mergeKeysIn [("a", num 5); ("b", num 7)]
      (decoded sampleUnmarshal (jsonText "{'a':{'x':1}}")).
Proof.
  assert (∀ order, NoDup order.*1 →
            list_to_map order
            = entries (decoded sampleUnmarshal (jsonText "{'a':5,'b':7}")) →
            order ≡ₚ map_to_list
                       (entries
                          (decoded sampleUnmarshal (jsonText "{'a':5,'b':7}"))))
    as Horder.
  { intros order Hnodup <-. symmetry. by apply map_to_list_to_map. }
  rewrite (MergeCR_any_key_order sampleUnmarshal (jsonText "{'a':5,'b':7}")
             (jsonText "{'a':{'x':1}}") [("b", num 7); ("a", num 5)]);
    [|discriminate|discriminate|].
  - rewrite (MergeCR_any_key_order sampleUnmarshal (jsonText "{'a':5,'b':7}")
               (jsonText "{'a':{'x':1}}") [("a", num 5); ("b", num 7)]);
      [reflexivity|discriminate|discriminate|].
    apply Horder; [|vm_compute; reflexivity].
    simpl. apply (bool_decide_unpack _). vm_compute. exact I.
  - apply Horder; [|vm_compute; reflexivity].
    simpl. apply (bool_decide_unpack _). vm_compute. exact I.
Defined.

(** X5: a default text that is empty, or that leaves no key in the map it
    is decoded into (as a syntax error, [{}] and [null] do), leaves a
    changed text that is not empty as it decodes. *)
Theorem MergeCR_default_without_keys
    (Unmarshal : list Byte.byte → unmarshalled)
    (defaultCR changedCR : list Byte.byte) :
  changedCR ≠ [] →
  entries (decoded Unmarshal defaultCR) = ∅ →
  MergeCR Unmarshal defaultCR changedCR
  = Done (decoded Unmarshal changedCR).
Proof.
  intros Hc Hempty. destruct defaultCR as [|b D].
  - by apply MergeCR_empty_default.
  - rewrite MergeCR_nonempty by done. unfold mergeKeys.
    by rewrite Hempty, map_fold_empty.
Qed.

Lemma MergeCR_default_without_keys_witness :
  MergeCR sampleUnmarshal (jsonText "{'a':") (jsonText "{'b':7}")
  = Done (GoMap {[ "b" := num 7 ]})
  ∧ MergeCR sampleUnmarshal (jsonText "null") (jsonText "{'b':7}")
    = Done (GoMap {[ "b" := num 7 ]}).
Proof.
  split.
  - rewrite (MergeCR_default_without_keys sampleUnmarshal
               (jsonText "{'a':") (jsonText "{'b':7}"));
      [vm_compute; reflexivity|discriminate|vm_compute; reflexivity].
  - rewrite (MergeCR_default_without_keys sampleUnmarshal
               (jsonText "null") (jsonText "{'b':7}"));
      [vm_compute; reflexivity|discriminate|vm_compute; reflexivity].
Defined.

(** X6: against a changed text that is not empty and leaves an empty map
    that is not nil (as a syntax error and [{}] do), the result is the
    default document without its top-level keys whose value is null.
    (With an empty changed input the early return of line 39 keeps those
    keys; for the nil map that [null] leaves see X23.) *)
Theorem MergeCR_changed_without_keys
    (Unmarshal : list Byte.byte → unmarshalled)
    (defaultCR changedCR : list Byte.byte) :
  defaultCR ≠ [] → changedCR ≠ [] →
  decoded Unmarshal changedCR = GoMap ∅ →
  ∃ r, MergeCR Unmarshal defaultCR changedCR = Done (GoMap r)
       ∧ ∀ k, r !! k = match entries (decoded Unmarshal defaultCR) !! k with
                       | Some VNull => None
                       | entry => entry
                       end.
Proof.
  intros Hd Hc Hempty. eexists. split.
  { rewrite MergeCR_nonempty by done. rewrite Hempty. apply mergeKeys_merged. }
  intros k. rewrite lookup_merged, lookup_empty.
  destruct (entries (decoded Unmarshal defaultCR) !! k) as [dv|]; simpl;
    [|done].
  destruct (reconciled_cases dv None)
    as [[Heq ->]|[(Hdv & _ & ->)
       |[(dm & cm & _ & [=] & _)|(_ & Hnull & _)]]]; simpl in *.
  - by subst dv.
  - by destruct dv.
  - done.
Qed.

Lemma MergeCR_changed_without_keys_witness :
  (∃ r, MergeCR sampleUnmarshal (jsonText "{'a':null}") (jsonText "{}")
        = Done (GoMap r) ∧ r !! "a" = None)
  ∧ MergeCR sampleUnmarshal (jsonText "{'a':null}") []
    = Done (GoMap {[ "a" := VNull ]}).
Proof.
  split; [|vm_compute; reflexivity].
  destruct (MergeCR_changed_without_keys sampleUnmarshal
              (jsonText "{'a':null}") (jsonText "{}"))
    as (r & Hr & Hlookup);
    [discriminate|discriminate|vm_compute; reflexivity|].
  exists r. split; [exact Hr|]. rewrite Hlookup. vm_compute. reflexivity.
Defined.

(** X7: merging goes down with the documents: when both documents decode,
    the changed one to a map that is not nil, and both have a mapping at a
    place [ks], the result has at [ks] the mapping that the loop of
    [MergeCR] makes of these two mappings. *)
Theorem MergeCR_sub_mapping (Unmarshal : list Byte.byte → unmarshalled)
    (defaultCR changedCR : list Byte.byte) (d : gomap) (c : document)
    (ks : list string) (dm cm : document) :
  Unmarshal [] = untouched →
  Unmarshal defaultCR = succeeded d →
  Unmarshal changedCR = succeeded (GoMap c) →
  getPath ks (VMap (entries d)) = Some (VMap dm) →
  getPath ks (VMap c) = Some (VMap cm) →
  ∃ r rm, MergeCR Unmarshal defaultCR changedCR = Done (GoMap r)
          ∧ mergeKeys (GoMap dm) (GoMap cm) = Done (GoMap rm)
          ∧ getPath ks (VMap r) = Some (VMap rm).
Proof.
  intros Hnil Hd Hc Hdm Hcm.
  exists (merged (entries d) c), (merged dm cm).
  split; [by apply MergeCR_decoded|].
  split; [apply mergeKeys_merged|by apply merged_descend].
Qed.

Lemma MergeCR_sub_mapping_witness :
  ∃ r rm,
    MergeCR sampleUnmarshal (jsonText "{'a':{'x':1,'y':2}}")
            (jsonText "{'a':{'x':9,'z':[true]}}") = Done (GoMap r)
    ∧ mergeKeys (GoMap {[ "x" := num 1; "y" := num 2 ]})
                (GoMap {[ "x" := num 9; "z" := VArr [VBool true] ]})
      = Done (GoMap rm)
    ∧ getPath ["a"] (VMap r) = Some (VMap rm).
Proof.
  apply (MergeCR_sub_mapping sampleUnmarshal
           (jsonText "{'a':{'x':1,'y':2}}")
           (jsonText "{'a':{'x':9,'z':[true]}}")
           (GoMap {[ "a" := VMap {[ "x" := num 1; "y" := num 2 ]} ]})
           {[ "a" := VMap {[ "x" := num 9; "z" := VArr [VBool true] ]} ]}
           ["a"]);
    vm_compute; reflexivity.
Defined.

(** X23: [MergeCR] panics in one case only: both texts are not empty, the
    changed text leaves a nil map (as [null] does) and the default
    document has a key whose value is not null; the panic is that of a
    write into a nil map (lines 67 and 78). *)
Theorem MergeCR_panics_iff (Unmarshal : list Byte.byte → unmarshalled)
    (defaultCR changedCR : list Byte.byte) (p : panic) :
  MergeCR Unmarshal defaultCR changedCR = Panic p
  ↔ p = AssignToNilMap
    ∧ defaultCR ≠ [] ∧ changedCR ≠ []
    ∧ decoded Unmarshal changedCR = NilMap
    ∧ ∃ k dv, entries (decoded Unmarshal defaultCR) !! k = Some dv
              ∧ dv ≠ VNull.
Proof.
  split.
  - intros Hpanic. destruct defaultCR as [|b0 D], changedCR as [|b1 C];
      try done.
    rewrite MergeCR_nonempty in Hpanic by done.
    destruct (decoded Unmarshal (b1 :: C)) as [|c];
      [|by rewrite mergeKeys_merged in Hpanic].
    rewrite mergeKeys_NilMap in Hpanic. case_bool_decide as Hall; [done|].
    injection Hpanic as <-. split_and!; try done.
    apply map_not_Forall in Hall as (k & dv & Hk & Hdv); [|apply _].
    exists k, dv. split; [done|]. by intros ->.
  - intros (-> & Hd & Hc & Hnil & k & dv & Hk & Hdv).
    rewrite MergeCR_nonempty, Hnil, mergeKeys_NilMap by done.
    rewrite bool_decide_eq_false_2; [done|].
    intros Hall. apply Hdv, DeepEqual_VNull. by apply (Hall k dv).
Qed.

Lemma MergeCR_panics_iff_witness :
  MergeCR sampleUnmarshal (jsonText "{'a':{'x':1}}") (jsonText "null")
  = Panic AssignToNilMap.
Proof.
  apply (MergeCR_panics_iff sampleUnmarshal
           (jsonText "{'a':{'x':1}}") (jsonText "null")).
  split; [reflexivity|]. split; [discriminate|]. split; [discriminate|].
  split; [vm_compute; reflexivity|].
  exists "a", (VMap {[ "x" := num 1 ]}).
  split; [vm_compute; reflexivity|discriminate].
Defined.

(** ** Further properties of [CompareChannelVersion] *)

Lemma Split_length (s : string) (sep : ascii) : 0 < length (Split s sep).
Proof.
  induction s as [|c s IH]; simpl; [lia|].
  destruct (bool_decide (c = sep)); simpl; [lia|].
  destruct (Split s sep); simpl; lia.
Qed.

Lemma Split_single_app (s : string) :
  length (Split s ".") = 1 → Split (s +:+ ".0") "." = [s; "0"].
Proof.
  induction s as [|c s IH]; simpl; [done|].
  destruct (bool_decide (c = "."%char)); simpl.
  { pose proof (Split_length s "."). lia. }
  pose proof (Split_length s ".") as Hpos.
  destruct (Split s ".") as [|piece [|piece' pieces]] eqn:Hs; simpl in *;
    [lia| |done].
  intros _. by rewrite IH.
Qed.

Lemma padded_length (cut : string) : (2 ≤ length (padded cut))%nat.
Proof.
  unfold padded. case_bool_decide as Hone.
  - by rewrite Split_single_app.
  - pose proof (Split_length cut "."). lia.
Qed.

(** Lines 142-161 in one equation: each list is the padded remainder of
    its name, but the first is that of ["0.0"] when either name holds no
    [v], and the second that of the empty text when the second name holds
    no [v]. *)
Lemma channelSlices_padded (v1 v2 : string) :
  channelSlices v1 v2
  = (padded (if (Cut v2 "v").2 && (Cut v1 "v").2
             then (Cut v1 "v").1.2 else "0.0"),
     padded (Cut v2 "v").1.2).
Proof.
  unfold channelSlices.
  destruct (Cut v1 "v") as [[before1 after1] found1].
  destruct (Cut v2 "v") as [[before2 after2] found2]. simpl.
  by destruct found1, found2.
Qed.

Lemma Cut_found (p r : string) (sep : ascii) :
  (Cut p sep).2 = false → Cut (p +:+ String sep r) sep = (p, r, true).
Proof.
  induction p as [|c p IH]; simpl.
  - intros _. by rewrite bool_decide_eq_true_2.
  - destruct (bool_decide (c = sep)); [done|].
    destruct (Cut p sep) as [[before after] found] eqn:Hcut. simpl in *.
    destruct found; [done|]. intros _. by rewrite IH.
Qed.

Lemma equalBefore_le (s1 s2 : list string) (i j : nat) :
  (j ≤ i)%nat → equalBefore s1 s2 i → equalBefore s1 s2 j.
Proof. intros Hle Heq k Hk. apply Heq. lia. Qed.

Lemma equalBefore_sym (s1 s2 : list string) (i : nat) :
  equalBefore s1 s2 i → equalBefore s2 s1 i.
Proof.
  intros Heq j Hj. destruct (Heq j Hj) as (n & c1 & c2 & ? & ? & ? & ?).
  by exists n, c2, c1.
Qed.

Lemma equalBefore_S (s1 s2 : list string) (i : nat) (n : Z) (c1 c2 : string) :
  equalBefore s1 s2 i → s1 !! i = Some c1 → s2 !! i = Some c2 →
  Atoi c1 = inl n → Atoi c2 = inl n → equalBefore s1 s2 (S i).
Proof.
  intros Heq H1 H2 Hn1 Hn2 j Hj. destruct (decide (j = i)) as [->|Hne].
  - by exists n, c1, c2.
  - apply Heq. lia.
Qed.

(** The loop passes over components that are equal integers. *)
Lemma compareFrom_skip (s1 s2 : list string) (i : nat) :
  equalBefore s1 s2 i →
  compareFrom 0 s1 s2 = compareFrom i (drop i s1) s2.
Proof.
  induction i as [|i IH]; intros Heq; [done|].
  rewrite IH by (eapply equalBefore_le; [|done]; lia).
  destruct (Heq i) as (n & c1 & c2 & H1 & H2 & Hn1 & Hn2); [lia|].
  rewrite (drop_S _ _ _ H1). simpl. rewrite Hn1, H2, Hn2.
  assert ((n >? n)%Z = false) as -> by lia. by rewrite Z.eqb_refl.
Qed.

Lemma compareFrom_stopsAt (s1 s2 : list string) (i : nat) (out : outcome) :
  equalBefore s1 s2 i → stopsAt s1 s2 i out → compareFrom 0 s1 s2 = out.
Proof.
  intros Heq (c1 & H1 & Hstop). rewrite (compareFrom_skip _ _ i Heq).
  rewrite (drop_S _ _ _ H1). simpl.
  destruct (Atoi c1) as [n1|e1]; [|done].
  destruct (s2 !! i) as [c2|]; [|done].
  destruct (Atoi c2) as [n2|e2]; [|done].
  destruct Hstop as [Hne ->].
  destruct (n1 >? n2)%Z eqn:Hgt; [done|].
  by rewrite (proj2 (Z.eqb_neq n1 n2) Hne).
Qed.

Lemma compareFrom_all_equal (s1 s2 : list string) :
  equalBefore s1 s2 (length s1) → compareFrom 0 s1 s2 = Returns false None.
Proof.
  intros Heq. rewrite (compareFrom_skip _ _ _ Heq). by rewrite drop_all.
Qed.

(** Every run of the loop is of one of these two kinds. *)
Lemma compareFrom_run (s1 s2 : list string) :
  (equalBefore s1 s2 (length s1)
   ∧ compareFrom 0 s1 s2 = Returns false None)
  ∨ ∃ i, equalBefore s1 s2 i ∧ stopsAt s1 s2 i (compareFrom 0 s1 s2).
Proof.
  assert (∀ n i, length s1 - i = n → equalBefore s1 s2 i →
            equalBefore s1 s2 (length s1)
            ∨ ∃ i', equalBefore s1 s2 i'
                    ∧ ∃ out, stopsAt s1 s2 i' out) as Hrun.
  { induction n as [|n IH]; intros i Hn Heq.
    - left. intros j Hj. apply Heq. lia.
    - destruct (lookup_lt_is_Some_2 s1 i) as [c1 H1]; [lia|].
      destruct (Atoi c1) as [n1|e1] eqn:Hn1.
      2: { right. exists i. split; [done|]. eexists. exists c1.
           split; [done|]. by rewrite Hn1. }
      destruct (s2 !! i) as [c2|] eqn:H2.
      2: { right. exists i. split; [done|]. eexists. exists c1.
           split; [done|]. by rewrite Hn1, H2. }
      destruct (Atoi c2) as [n2|e2] eqn:Hn2.
      2: { right. exists i. split; [done|]. eexists. exists c1.
           split; [done|]. by rewrite Hn1, H2, Hn2. }
      destruct (decide (n1 = n2)) as [->|Hne].
      + apply (IH (S i)); [lia|]. by eapply equalBefore_S.
      + right. exists i. split; [done|]. eexists. exists c1.
        split; [done|]. by rewrite Hn1, H2, Hn2. }
  destruct (Hrun (length s1) 0) as [Hall|(i & Heq & out & Hstop)];
    [lia|by intros j ?; lia| |].
  - left. split; [done|]. by apply compareFrom_all_equal.
  - right. exists i. split; [done|].
    by rewrite (compareFrom_stopsAt _ _ _ _ Heq Hstop).
Qed.

(** X8: whatever the two names are, each of the two lists that the loop
    compares has at least two components. *)
Theorem CompareChannelVersion_two_components (v1 v2 : string) :
  (2 ≤ length (channelSlices v1 v2).1)%nat
  ∧ (2 ≤ length (channelSlices v1 v2).2)%nat.
Proof. rewrite channelSlices_padded. split; apply padded_length. Qed.

(** X9: what stands before the first [v] of a name does not matter: two
    names with any [v]-free texts before their first [v] compare as the
    names that start at that [v]. *)
Theorem CompareChannelVersion_prefix_ignored (p1 r1 p2 r2 : string) :
  (Cut p1 "v").2 = false →
  (Cut p2 "v").2 = false →
  CompareChannelVersion (p1 +:+ String "v" r1) (p2 +:+ String "v" r2)
  = CompareChannelVersion (String "v" r1) (String "v" r2).
Proof.
  intros H1 H2. unfold CompareChannelVersion.
  rewrite !channelSlices_padded.
  by rewrite (Cut_found p1 r1 _ H1), (Cut_found p2 r2 _ H2).
Qed.

Lemma CompareChannelVersion_prefix_ignored_witness :
  CompareChannelVersion "stable-v1.10" "beta-v1.9" = Returns true None.
Proof.
  transitivity (CompareChannelVersion "v1.10" "v1.9");
    [|vm_compute; reflexivity].
  apply (CompareChannelVersion_prefix_ignored "stable-" "1.10" "beta-" "1.9");
    vm_compute; reflexivity.
Defined.

(** The loop answers [true] exactly at a first difference where the
    integer of the first list is the greater one. *)
Lemma compareFrom_true_iff (s1 s2 : list string) (e : option NumError) :
  compareFrom 0 s1 s2 = Returns true e
  ↔ e = None
    ∧ ∃ i c1 c2 n1 n2,
        equalBefore s1 s2 i
        ∧ s1 !! i = Some c1 ∧ s2 !! i = Some c2
        ∧ Atoi c1 = inl n1 ∧ Atoi c2 = inl n2 ∧ (n2 < n1)%Z.
Proof.
  split.
  - intros Hout.
    destruct (compareFrom_run s1 s2)
      as [[_ Hfalse]|(i & Heq & c1 & H1 & Hstop)]; [congruence|].
    rewrite Hout in Hstop.
    destruct (Atoi c1) as [n1|e1] eqn:Hn1; [|done].
    destruct (s2 !! i) as [c2|] eqn:H2; [|done].
    destruct (Atoi c2) as [n2|e2] eqn:Hn2; [|done].
    destruct Hstop as [Hne [= Hgt <-]]. split; [done|].
    exists i, c1, c2, n1, n2. split_and!; try done. lia.
  - intros [-> (i & c1 & c2 & n1 & n2 & Heq & H1 & H2 & Hn1 & Hn2 & Hlt)].
    apply (compareFrom_stopsAt _ _ i); [done|].
    exists c1. split; [done|]. rewrite Hn1, H2, Hn2.
    split; [lia|]. by assert ((n1 >? n2)%Z = true) as -> by lia.
Qed.

(** X10: the call answers [true] exactly when the two lists
    [(s1, s2)] of the names hold equal integers up to an index at which
    both hold integers and that of the first list is the greater one; the
    answer [true] never comes with an error. *)
Theorem CompareChannelVersion_true_iff (v1 v2 : string)
    (s1 s2 : list string) (e : option NumError) :
  channelSlices v1 v2 = (s1, s2) →
  CompareChannelVersion v1 v2 = Returns true e
  ↔ e = None
    ∧ ∃ i c1 c2 n1 n2,
        equalBefore s1 s2 i
        ∧ s1 !! i = Some c1 ∧ s2 !! i = Some c2
        ∧ Atoi c1 = inl n1 ∧ Atoi c2 = inl n2 ∧ (n2 < n1)%Z.
Proof.
  intros Hslices. unfold CompareChannelVersion. rewrite Hslices.
  apply compareFrom_true_iff.
Qed.

Lemma CompareChannelVersion_true_iff_witness :
  CompareChannelVersion "v1.10" "v1.9" = Returns true None.
Proof.
  apply (CompareChannelVersion_true_iff "v1.10" "v1.9"
           ["1"; "10"] ["1"; "9"] None); [vm_compute; reflexivity|].
  split; [reflexivity|]. exists 1, "10", "9", 10%Z, 9%Z.
  split; [|vm_compute; auto 10].
  intros j Hj. assert (j = 0) as -> by lia.
  exists 1%Z, "1", "1". vm_compute. auto.
Defined.

(** X11: the call panics exactly when the second list [s2] is used up
    while the loop is still running: the lists hold equal integers at all
    indices of [s2], and the first list holds one more integer; the index
    of the panic is the length of [s2]. *)
Theorem CompareChannelVersion_panics_iff (v1 v2 : string)
    (s1 s2 : list string) (i : nat) :
  channelSlices v1 v2 = (s1, s2) →
  CompareChannelVersion v1 v2 = Panics i
  ↔ i = length s2
    ∧ equalBefore s1 s2 i
    ∧ ∃ c n, s1 !! i = Some c ∧ Atoi c = inl n.
Proof.
  intros Hslices. unfold CompareChannelVersion. rewrite Hslices. split.
  - intros Hout.
    destruct (compareFrom_run s1 s2)
      as [[_ Hfalse]|(i' & Heq & c1 & H1 & Hstop)]; [congruence|].
    rewrite Hout in Hstop.
    destruct (Atoi c1) as [n1|e1] eqn:Hn1; [|done].
    destruct (s2 !! i') as [c2|] eqn:H2.
    { destruct (Atoi c2) as [n2|e2]; [by destruct Hstop|done]. }
    injection Hstop as ->. split; [|eauto].
    apply lookup_ge_None in H2.
    destruct i' as [|i']; [lia|].
    destruct (Heq i') as (n & d1 & d2 & _ & Hd2 & _); [lia|].
    apply lookup_lt_Some in Hd2. lia.
  - intros (-> & Heq & c & n & H1 & Hn).
    apply (compareFrom_stopsAt _ _ (length s2)); [done|].
    exists c. split; [done|]. rewrite Hn.
    by rewrite (proj2 (lookup_ge_None s2 (length s2))).
Qed.

Lemma CompareChannelVersion_panics_iff_witness :
  CompareChannelVersion "v3.7.2" "v3.7" = Panics 2.
Proof.
  apply (CompareChannelVersion_panics_iff "v3.7.2" "v3.7"
           ["3"; "7"; "2"] ["3"; "7"] 2); [vm_compute; reflexivity|].
  split; [reflexivity|]. split; [|exists "2", 2%Z; vm_compute; auto].
  intros j Hj. destruct j as [|[|j]]; [| |lia].
  - exists 3%Z, "3", "3". vm_compute. auto.
  - exists 7%Z, "7", "7". vm_compute. auto.
Defined.

(** X12: the answer [true] is not given both ways: when the call for
    [(v1, v2)] answers [true], the call for [(v2, v1)] returns [false]; it
    does not panic. *)
Theorem CompareChannelVersion_asymmetric (v1 v2 : string)
    (e : option NumError) :
  CompareChannelVersion v1 v2 = Returns true e →
  ∃ e', CompareChannelVersion v2 v1 = Returns false e'.
Proof.
  intros Htrue.
  destruct (Cut v2 "v").2 eqn:Hv2.
  2: { destruct (CompareChannelVersion_second_without_v v1 v2 Hv2)
         as [_ Herr]. congruence. }
  destruct (Cut v1 "v").2 eqn:Hv1.
  2: { destruct (CompareChannelVersion_second_without_v v2 v1 Hv1)
         as [_ Herr]. eauto. }
  pose proof (channelSlices_padded v1 v2) as H12.
  pose proof (channelSlices_padded v2 v1) as H21.
  rewrite Hv1, Hv2 in H12, H21. simpl in H12, H21.
  unfold CompareChannelVersion in Htrue. rewrite H12 in Htrue.
  apply compareFrom_true_iff in Htrue
    as [-> (i & c1 & c2 & n1 & n2 & Heq & H1 & H2 & Hn1 & Hn2 & Hlt)].
  exists None. unfold CompareChannelVersion. rewrite H21.
  apply (compareFrom_stopsAt _ _ i); [by apply equalBefore_sym|].
  exists c2. split; [done|]. rewrite Hn2, H1, Hn1.
  split; [lia|]. by assert ((n2 >? n1)%Z = false) as -> by lia.
Qed.

Lemma CompareChannelVersion_asymmetric_witness :
  ∃ e', CompareChannelVersion "v1.9" "v2.0" = Returns false e'.
Proof.
  apply (CompareChannelVersion_asymmetric "v2.0" "v1.9" None).
  vm_compute. reflexivity.
Defined.

(** X13: a name compared with itself is never the larger one, and the
    call does not panic: it returns [false], with or without an error. *)
Theorem CompareChannelVersion_self (v : string) :
  ∃ e, CompareChannelVersion v v = Returns false e.
Proof.
  destruct (Cut v "v").2 eqn:Hv.
  2: { destruct (CompareChannelVersion_second_without_v v v Hv)
         as [_ Herr]. eauto. }
  pose proof (channelSlices_padded v v) as Hslices.
  rewrite Hv in Hslices. simpl in Hslices.
  unfold CompareChannelVersion. rewrite Hslices.
  destruct (compareFrom_run (padded (Cut v "v").1.2) (padded (Cut v "v").1.2))
    as [[_ ->]|(i & Heq & c1 & H1 & Hstop)]; [eauto|].
  destruct (Atoi c1) as [n1|e1] eqn:Hn1; [|eauto].
  rewrite H1, Hn1 in Hstop. by destruct Hstop.
Qed.

(** X14: when the second name holds no [v], the call returns [false] with
    the syntax error of [Atoi] on the empty text, whatever the first name
    is: line 153 sets the first remainder to ["0.0"] and the second
    remainder stays empty. *)
Theorem CompareChannelVersion_second_needs_v (v1 v2 : string) :
  (Cut v2 "v").2 = false →
  CompareChannelVersion v1 v2
  = Returns false (Some {| Num := ""; Err := ErrSyntax |}).
Proof. intros Hv2. by apply CompareChannelVersion_second_without_v. Qed.

Lemma CompareChannelVersion_second_needs_v_witness :
  CompareChannelVersion "v4.2" "4.1"
  = Returns false (Some {| Num := ""; Err := ErrSyntax |}).
Proof.
  apply (CompareChannelVersion_second_needs_v "v4.2" "4.1").
  vm_compute. reflexivity.
Defined.

(** ** [StringSliceContentEqual] and [Contains] *)

Lemma sortStrings_Sorted (l : list string) : Sorted String.le (sortStrings l).
Proof. apply (Sorted_merge_sort String.le). Qed.

Lemma sortStrings_Permutation (l : list string) : sortStrings l ≡ₚ l.
Proof. apply (merge_sort_Permutation String.le). Qed.

Lemma sortStrings_length (l : list string) :
  length (sortStrings l) = length l.
Proof. apply Permutation_length, sortStrings_Permutation. Qed.

Lemma elems_length (mem : list string) (s : slice) :
  inMemory mem s → length (elems mem s) = len s.
Proof.
  unfold inMemory, elems. intros Hin. rewrite length_take, length_drop. lia.
Qed.

Lemma lookup_elems (mem : list string) (s : slice) (t : nat) :
  t < len s → elems mem s !! t = mem !! (offset s + t).
Proof.
  intros Ht. unfold elems. by rewrite lookup_take_lt, lookup_drop.
Qed.

Lemma lookup_elems_ge (mem : list string) (s : slice) (t : nat) :
  (len s ≤ t)%nat → elems mem s !! t = None.
Proof. intros Ht. unfold elems. by rewrite lookup_take_ge. Qed.

Lemma store_length (mem : list string) (s : slice) (w : list string) :
  inMemory mem s → length w = len s → length (store mem s w) = length mem.
Proof.
  unfold inMemory, store. intros Hin Hw.
  rewrite !length_app, length_take, length_drop. lia.
Qed.

Lemma lookup_store (mem : list string) (s : slice) (w : list string)
    (p : nat) :
  inMemory mem s → length w = len s →
  store mem s w !! p
  = if decide (p < offset s) then mem !! p
    else if decide (p < offset s + len s) then w !! (p - offset s)
         else mem !! p.
Proof.
  unfold inMemory, store. intros Hin Hw.
  assert (length (take (offset s) mem) = offset s) as Hlen
    by (rewrite length_take; lia).
  destruct (decide (p < offset s)) as [Hp|Hp].
  - rewrite lookup_app_l by lia. by rewrite lookup_take_lt.
  - rewrite lookup_app_r by lia. rewrite Hlen.
    destruct (decide (p < offset s + len s)) as [Hq|Hq].
    + by rewrite lookup_app_l by lia.
    + rewrite lookup_app_r by lia. rewrite lookup_drop, Hw. f_equal. lia.
Qed.

Lemma store_inMemory (mem : list string) (s s' : slice) (w : list string) :
  inMemory mem s → length w = len s → inMemory mem s' →
  inMemory (store mem s w) s'.
Proof. unfold inMemory at 3. intros. by rewrite store_length. Qed.

Lemma elems_store (mem : list string) (s : slice) (w : list string) :
  inMemory mem s → length w = len s → elems (store mem s w) s = w.
Proof.
  intros Hin Hw. apply list_eq. intros t.
  destruct (decide (t < len s)) as [Ht|Ht].
  - rewrite lookup_elems, lookup_store by done.
    rewrite decide_False, decide_True by lia. f_equal. lia.
  - rewrite lookup_elems_ge by lia. symmetry. apply lookup_ge_None. lia.
Qed.

Lemma elems_store_apart (mem : list string) (s s' : slice)
    (w : list string) :
  inMemory mem s → length w = len s → apart s s' →
  elems (store mem s w) s' = elems mem s'.
Proof.
  intros Hin Hw Hapart. apply list_eq. intros t.
  destruct (decide (t < len s')) as [Ht|Ht].
  - rewrite !lookup_elems, lookup_store by done.
    destruct (decide (offset s' + t < offset s)); [done|].
    destruct (decide (offset s' + t < offset s + len s)); [|done].
    unfold apart in Hapart. lia.
  - by rewrite !lookup_elems_ge by lia.
Qed.

Lemma store_elems (mem : list string) (s : slice) :
  inMemory mem s → store mem s (elems mem s) = mem.
Proof.
  intros Hin. apply list_eq. intros p.
  rewrite lookup_store by (done || by apply elems_length).
  destruct (decide (p < offset s)); [done|].
  destruct (decide (p < offset s + len s)); [|done].
  rewrite lookup_elems by lia. f_equal. lia.
Qed.

Lemma Contains_elem_of (list : list string) (s : string) :
  Contains list s = true ↔ s ∈ list.
Proof.
  induction list as [|v list IH]; simpl.
  - split; [done|]. by intros ?%elem_of_nil.
  - rewrite elem_of_cons. case_bool_decide as Hv.
    + split; [intros _; by left|done].
    + rewrite IH. split; [by right|]. intros [->|?]; done.
Qed.

(** X17: [Contains] answers [true] exactly for the strings that occur in
    the slice. *)
Theorem Contains_iff_elem_of (list : list string) (s : string) :
  Contains list s = true ↔ s ∈ list.
Proof. apply Contains_elem_of. Qed.

Lemma sortStrings_Sorted_id (l : list string) :
  Sorted String.le l → sortStrings l = l.
Proof.
  intros Hsorted.
  apply (Sorted_unique String.le);
    [apply sortStrings_Sorted|done|apply sortStrings_Permutation].
Qed.

Lemma sortStrings_eq_Permutation (a b : list string) :
  sortStrings a = sortStrings b ↔ a ≡ₚ b.
Proof.
  split.
  - intros Heq. rewrite <- (sortStrings_Permutation a), Heq.
    apply sortStrings_Permutation.
  - intros Hperm.
    apply (Sorted_unique String.le); try apply sortStrings_Sorted.
    by rewrite !sortStrings_Permutation.
Qed.

Lemma sameFrom_eq (rest : list string) (i : nat) (b : list string) :
  i + length rest = length b →
  sameFrom i rest b = Some (bool_decide (rest = drop i b)).
Proof.
  revert i. induction rest as [|v rest IH]; intros i Hlen; simpl in *.
  - rewrite drop_ge by lia. by rewrite bool_decide_eq_true_2.
  - destruct (lookup_lt_is_Some_2 b i) as [w Hw]; [lia|].
    rewrite Hw, (drop_S _ _ _ Hw). case_bool_decide as Hvw.
    + rewrite bool_decide_eq_false_2; [done|]. by intros [= ? _].
    + subst w. rewrite IH by lia.
      f_equal. apply bool_decide_ext. split; [by intros ->|by intros [= ->]].
Qed.

(** The slices after the two sorts. *)
Lemma sortSlice_inMemory (mem : list string) (s s' : slice) :
  inMemory mem s → inMemory mem s' → inMemory (sortSlice mem s) s'.
Proof.
  intros Hs Hs'. apply store_inMemory; [done| |done].
  by rewrite sortStrings_length, elems_length.
Qed.

Lemma elems_sortSlice (mem : list string) (s : slice) :
  inMemory mem s → elems (sortSlice mem s) s = sortStrings (elems mem s).
Proof.
  intros Hs. apply elems_store; [done|].
  by rewrite sortStrings_length, elems_length.
Qed.

Lemma elems_sortSlice_apart (mem : list string) (s s' : slice) :
  inMemory mem s → apart s s' → elems (sortSlice mem s) s' = elems mem s'.
Proof.
  intros Hs Hapart. apply elems_store_apart; [done| |done].
  by rewrite sortStrings_length, elems_length.
Qed.

Lemma StringSliceContentEqual_same_len (mem : list string) (a b : slice) :
  inMemory mem a → inMemory mem b → len a = len b →
  StringSliceContentEqual mem a b
  = (Some (bool_decide (elems (sortSlice (sortSlice mem a) b) a
                        = sortStrings (elems (sortSlice mem a) b))),
     sortSlice (sortSlice mem a) b).
Proof.
  intros Ha Hb Hlen. unfold StringSliceContentEqual.
  rewrite bool_decide_eq_false_2 by (by intros ?). f_equal.
  pose proof (sortSlice_inMemory mem a a Ha Ha) as Ha1.
  pose proof (sortSlice_inMemory mem a b Ha Hb) as Hb1.
  rewrite sameFrom_eq.
  - by rewrite drop_0, (elems_sortSlice _ b Hb1).
  - rewrite !elems_length; [done|by apply sortSlice_inMemory..].
Qed.

Lemma StringSliceContentEqual_apart (mem : list string) (a b : slice) :
  inMemory mem a → inMemory mem b → len a = len b → apart a b →
  elems (sortSlice (sortSlice mem a) b) a = sortStrings (elems mem a)
  ∧ elems (sortSlice (sortSlice mem a) b) b = sortStrings (elems mem b).
Proof.
  intros Ha Hb Hlen Hapart.
  pose proof (sortSlice_inMemory mem a b Ha Hb) as Hb1.
  split.
  - rewrite elems_sortSlice_apart; [by apply elems_sortSlice|done|].
    unfold apart in *. lia.
  - rewrite elems_sortSlice by done. by rewrite elems_sortSlice_apart.
Qed.

Lemma StronglySorted_lookup_le (l : list string) (i j : nat) (x y : string) :
  StronglySorted String.le l → (i ≤ j)%nat →
  l !! i = Some x → l !! j = Some y → String.le x y.
Proof.
  intros Hsorted. revert i j.
  induction Hsorted as [|z l _ IH Hall]; intros i j Hij Hi Hj; [done|].
  destruct i as [|i], j as [|j]; simpl in *; try lia.
  - by simplify_eq.
  - injection Hi as ->. rewrite Forall_forall in Hall.
    apply Hall. by eapply list_elem_of_lookup_2.
  - apply (IH i j); [lia|done..].
Qed.

Lemma Sorted_periodic (w : list string) (k : nat) :
  Sorted String.le w → 0 < k → k < length w →
  (∀ t, t + k < length w → w !! t = w !! (t + k)) →
  ∀ t, t < length w → w !! t = w !! 0.
Proof.
  intros Hsorted%(Sorted_StronglySorted String.le) Hk Hlen Hper.
  assert (∀ m, m + k < length w → ∀ t, (t ≤ m + k)%nat → w !! t = w !! 0)
    as Hall.
  { induction m as [|m IH]; intros Hm t Ht.
    - destruct (lookup_lt_is_Some_2 w 0) as [x0 H0]; [lia|].
      destruct (lookup_lt_is_Some_2 w t) as [xt Hxt]; [lia|].
      destruct (lookup_lt_is_Some_2 w k) as [xk Hxk]; [lia|].
      assert (xk = x0) as -> by (specialize (Hper 0); simpl in Hper;
        rewrite Hper in H0 by lia; congruence).
      rewrite Hxt, H0. f_equal. apply (anti_symm String.le).
      + by apply (StronglySorted_lookup_le w t k).
      + apply (StronglySorted_lookup_le w 0 t); [done|lia|done..].
    - destruct (decide (t ≤ m + k)%nat) as [Hle|Hgt]; [apply IH; lia|].
      assert (t = S m + k) as -> by lia.
      rewrite <- Hper by lia. apply IH; lia. }
  intros t Ht. apply (Hall (length w - 1 - k)); lia.
Qed.

Lemma elems_filled (mem : list string) (s : slice) (lo hi : nat)
    (x : string) :
  filled mem lo hi x → (lo ≤ offset s)%nat → (offset s + len s ≤ hi)%nat →
  elems mem s = replicate (len s) x.
Proof.
  intros Hf Hlo Hhi. apply list_eq. intros t.
  destruct (decide (t < len s)) as [Ht|Ht].
  - rewrite lookup_elems by done. rewrite Hf by lia.
    symmetry. by apply lookup_replicate_2.
  - rewrite lookup_elems_ge by lia. symmetry.
    apply lookup_ge_None. rewrite length_replicate. lia.
Qed.

Lemma sortStrings_replicate_inv (l : list string) (n : nat) (x : string) :
  sortStrings l = replicate n x → l = replicate n x.
Proof.
  intros Heq. pose proof (sortStrings_Permutation l) as Hperm.
  rewrite Heq in Hperm. symmetry. by apply replicate_Permutation.
Qed.

Lemma filled_sortSlice_inv (mem : list string) (s : slice) (lo hi : nat)
    (x : string) :
  inMemory mem s → (lo ≤ offset s)%nat → (offset s + len s ≤ hi)%nat →
  filled (sortSlice mem s) lo hi x → filled mem lo hi x.
Proof.
  intros Hin Hlo Hhi Hf.
  assert (elems mem s = replicate (len s) x) as He.
  { apply sortStrings_replicate_inv. rewrite <- elems_sortSlice by done.
    by apply (elems_filled _ _ lo hi). }
  intros p Hp1 Hp2. specialize (Hf p Hp1 Hp2). unfold sortSlice in Hf.
  rewrite lookup_store in Hf
    by (done || by rewrite sortStrings_length, elems_length).
  destruct (decide (p < offset s)); [done|].
  destruct (decide (p < offset s + len s)); [|done].
  replace p with (offset s + (p - offset s)) by lia.
  rewrite <- lookup_elems by lia. rewrite He. apply lookup_replicate_2. lia.
Qed.

Lemma overlapping_equal_filled (mem : list string) (a b : slice) :
  inMemory mem a → inMemory mem b → len a = len b →
  offset a ≠ offset b → ¬ apart a b →
  Sorted String.le (elems mem b) → elems mem a = elems mem b →
  ∃ x, filled mem (offset a `min` offset b)
         (offset a `max` offset b + len a) x.
Proof.
  intros Ha Hb Hlen Hoff Hapart Hsorted Heq.
  pose proof (elems_length mem b Hb) as Hwlen.
  assert (0 < len a ∧ offset a < offset b + len b
          ∧ offset b < offset a + len a) as (Hn & Hab & Hba)
    by (unfold apart in Hapart; lia).
  set (k := offset a `max` offset b - offset a `min` offset b).
  assert (∀ t, t < length (elems mem b) →
            elems mem b !! t = elems mem b !! 0) as Hconst.
  { apply (Sorted_periodic _ k); [done|lia|lia|].
    intros t Ht. destruct (decide (offset a < offset b)) as [Hlt|Hge].
    - rewrite (lookup_elems mem b t) by lia.
      rewrite <- Heq, lookup_elems by lia. f_equal. lia.
    - rewrite (lookup_elems mem b (t + k)) by lia.
      rewrite <- Heq, lookup_elems by lia. f_equal. lia. }
  destruct (lookup_lt_is_Some_2 (elems mem b) 0) as [x Hx]; [lia|].
  exists x. intros p Hp1 Hp2.
  destruct (decide (offset a ≤ p < offset a + len a)%nat) as [Hpa|Hpa].
  - replace p with (offset a + (p - offset a)) by lia.
    rewrite <- lookup_elems, Heq, Hconst by lia. done.
  - replace p with (offset b + (p - offset b)) by lia.
    rewrite <- lookup_elems, Hconst by lia. done.
Qed.

(** When the answer is [true], the two slices held the same strings, and
    still hold them. *)
Lemma StringSliceContentEqual_true (mem : list string) (a b : slice) :
  inMemory mem a → inMemory mem b →
  (StringSliceContentEqual mem a b).1 = Some true →
  elems mem a ≡ₚ elems mem b
  ∧ elems (StringSliceContentEqual mem a b).2 a ≡ₚ elems mem a
  ∧ elems (StringSliceContentEqual mem a b).2 b ≡ₚ elems mem b.
Proof.
  intros Ha Hb.
  destruct (decide (len a = len b)) as [Hlen|Hlen];
    [|unfold StringSliceContentEqual; by rewrite bool_decide_eq_true_2].
  rewrite StringSliceContentEqual_same_len by done.
  cbn [fst snd]. intros [= Heq%bool_decide_eq_true].
  pose proof (sortSlice_inMemory mem a a Ha Ha) as Ha1.
  pose proof (sortSlice_inMemory mem a b Ha Hb) as Hb1.
  pose proof (sortSlice_inMemory _ b a Hb1 Ha1) as Ha2.
  pose proof (sortSlice_inMemory _ b b Hb1 Hb1) as Hb2.
  rewrite <- (elems_sortSlice _ b Hb1) in Heq.
  destruct (decide (apart a b)) as [Hapart|Hapart].
  { destruct (StringSliceContentEqual_apart mem a b) as [Ea Eb]; [done..|].
    rewrite Ea, Eb in Heq |- *.
    split; [by apply sortStrings_eq_Permutation|].
    split; apply sortStrings_Permutation. }
  destruct (decide (offset a = offset b)) as [Hoff|Hoff].
  { assert (a = b) as <- by (destruct a, b; simpl in *; congruence).
    rewrite (elems_sortSlice _ a Ha1), (elems_sortSlice _ a Ha).
    split; [done|].
    rewrite (sortStrings_Sorted_id (sortStrings _))
      by apply sortStrings_Sorted.
    split; apply sortStrings_Permutation. }
  destruct (overlapping_equal_filled _ a b Ha2 Hb2 Hlen Hoff Hapart)
    as [x Hfilled]; [|done|].
  { rewrite (elems_sortSlice _ b Hb1). apply sortStrings_Sorted. }
  pose proof Hfilled as Hfilled1.
  apply filled_sortSlice_inv in Hfilled1; [|done|lia..].
  pose proof Hfilled1 as Hfilled0.
  apply filled_sortSlice_inv in Hfilled0; [|done|lia..].
  rewrite (elems_filled _ a _ _ x Hfilled), (elems_filled _ b _ _ x Hfilled),
    (elems_filled _ a _ _ x Hfilled0), (elems_filled _ b _ _ x Hfilled0)
    by lia.
  by rewrite Hlen.
Qed.

Lemma sortSlice_Sorted_id (mem : list string) (s : slice) :
  inMemory mem s → Sorted String.le (elems mem s) → sortSlice mem s = mem.
Proof.
  intros Hin Hsorted. unfold sortSlice.
  rewrite sortStrings_Sorted_id by done. by apply store_elems.
Qed.

Lemma lookup_sortSlice_outside (mem : list string) (s : slice) (p : nat) :
  inMemory mem s → ¬ (offset s ≤ p < offset s + len s)%nat →
  sortSlice mem s !! p = mem !! p.
Proof.
  intros Hin Hp. unfold sortSlice.
  rewrite lookup_store by (done || by rewrite sortStrings_length, elems_length).
  destruct (decide (p < offset s)); [done|].
  destruct (decide (p < offset s + len s)); [lia|done].
Qed.

Lemma Contains_Permutation (l1 l2 : list string) (s : string) :
  l1 ≡ₚ l2 → Contains l1 s = Contains l2 s.
Proof.
  intros Hl. apply eq_true_iff_eq. by rewrite !Contains_elem_of, Hl.
Qed.

(** X15: on two slices that lie within their arrays,
    [StringSliceContentEqual] never indexes out of range.  An answer of
    [true] means that the slices held the same strings the same number of
    times; and for slices that share no element of memory the converse
    holds too: permutations of each other are answered [true]. *)
Theorem StringSliceContentEqual_iff_Permutation (mem : list string)
    (a b : slice) :
  inMemory mem a → inMemory mem b →
  ∃ r, (StringSliceContentEqual mem a b).1 = Some r
     ∧ (r = true → elems mem a ≡ₚ elems mem b)
     ∧ (apart a b → elems mem a ≡ₚ elems mem b → r = true).
Proof.
  intros Ha Hb.
  destruct (decide (len a = len b)) as [Hlen|Hlen].
  - pose proof (StringSliceContentEqual_true mem a b Ha Hb) as Htrue.
    rewrite StringSliceContentEqual_same_len in Htrue |- * by done.
    cbn [fst] in *. eexists. split; [done|]. split.
    + intros Hr. rewrite Hr in Htrue. by destruct Htrue as [? _].
    + intros Hapart Hperm. apply bool_decide_eq_true.
      destruct (StringSliceContentEqual_apart mem a b) as [Ea Eb]; [done..|].
      rewrite Ea. rewrite <- (elems_sortSlice _ b), Eb
        by (by apply sortSlice_inMemory).
      by apply sortStrings_eq_Permutation.
  - unfold StringSliceContentEqual. rewrite bool_decide_eq_true_2 by done.
    exists false. split; [done|]. split; [done|].
    intros _ Hperm%Permutation_length.
    rewrite !elems_length in Hperm by done. done.
Qed.

Lemma StringSliceContentEqual_iff_Permutation_witness :
  ∃ r, (StringSliceContentEqual
          ["ns-b"; "ns-a"; "ns-c"; "ns-c"; "ns-b"; "ns-a"]
          {| offset := 0; len := 3 |} {| offset := 3; len := 3 |}).1 = Some r
     ∧ (r = true → ["ns-b"; "ns-a"; "ns-c"] ≡ₚ ["ns-c"; "ns-b"; "ns-a"])
     ∧ (apart {| offset := 0; len := 3 |} {| offset := 3; len := 3 |} →
        ["ns-b"; "ns-a"; "ns-c"] ≡ₚ ["ns-c"; "ns-b"; "ns-a"] → r = true).
Proof.
  apply (StringSliceContentEqual_iff_Permutation
           ["ns-b"; "ns-a"; "ns-c"; "ns-c"; "ns-b"; "ns-a"]
           {| offset := 0; len := 3 |} {| offset := 3; len := 3 |});
    unfold inMemory; simpl; lia.
Defined.

(** X16: what the call does to the memory of its caller, for two slices
    that lie within their arrays and share no element.  Each slice keeps
    its contents; nothing outside the two slices is written; when the
    lengths differ nothing is written at all; when the lengths agree both
    slices are left in increasing order; and a second call on the memory as
    the first one left it gives the same answer and writes nothing new. *)
Theorem StringSliceContentEqual_slices (mem : list string) (a b : slice) :
  inMemory mem a → inMemory mem b → apart a b →
  let mem' := (StringSliceContentEqual mem a b).2 in
  elems mem' a ≡ₚ elems mem a ∧ elems mem' b ≡ₚ elems mem b
  ∧ (∀ p, ¬ (offset a ≤ p < offset a + len a)%nat →
          ¬ (offset b ≤ p < offset b + len b)%nat → mem' !! p = mem !! p)
  ∧ (len a ≠ len b → mem' = mem)
  ∧ (len a = len b →
     Sorted String.le (elems mem' a) ∧ Sorted String.le (elems mem' b))
  ∧ StringSliceContentEqual mem' a b
    = ((StringSliceContentEqual mem a b).1, mem').
Proof.
  intros Ha Hb Hapart.
  destruct (decide (len a = len b)) as [Hlen|Hlen].
  - pose proof (sortSlice_inMemory mem a a Ha Ha) as Ha1.
    pose proof (sortSlice_inMemory mem a b Ha Hb) as Hb1.
    pose proof (sortSlice_inMemory _ b a Hb1 Ha1) as Ha2.
    pose proof (sortSlice_inMemory _ b b Hb1 Hb1) as Hb2.
    destruct (StringSliceContentEqual_apart mem a b) as [Ea Eb]; [done..|].
    cbv zeta. rewrite (StringSliceContentEqual_same_len mem a b) by done.
    cbn [fst snd].
    assert (Sorted String.le (elems (sortSlice (sortSlice mem a) b) a))
      as Sa by (rewrite Ea; apply sortStrings_Sorted).
    assert (Sorted String.le (elems (sortSlice (sortSlice mem a) b) b))
      as Sb by (rewrite Eb; apply sortStrings_Sorted).
    split; [rewrite Ea; apply sortStrings_Permutation|].
    split; [rewrite Eb; apply sortStrings_Permutation|].
    split; [intros p Hpa Hpb; by rewrite !lookup_sortSlice_outside|].
    split; [done|]. split; [done|].
    rewrite StringSliceContentEqual_same_len by done.
    rewrite !(sortSlice_Sorted_id (sortSlice (sortSlice mem a) b)) by done.
    rewrite (sortStrings_Sorted_id _ Sb).
    by rewrite <- (elems_sortSlice _ b Hb1).
  - unfold StringSliceContentEqual. rewrite !bool_decide_eq_true_2 by done.
    cbn [fst snd]. rewrite ?bool_decide_eq_true_2 by done. done.
Qed.

Lemma StringSliceContentEqual_slices_witness :
  StringSliceContentEqual ["ns-b"; "ns-a"; "ns-c"; "ns-c"; "ns-b"; "ns-a"]
    {| offset := 0; len := 3 |} {| offset := 3; len := 3 |}
  = (Some true, ["ns-a"; "ns-b"; "ns-c"; "ns-a"; "ns-b"; "ns-c"])
  ∧ Sorted String.le ["ns-a"; "ns-b"; "ns-c"].
Proof.
  split; [vm_compute; reflexivity|].
  pose proof (StringSliceContentEqual_slices
                ["ns-b"; "ns-a"; "ns-c"; "ns-c"; "ns-b"; "ns-a"]
                {| offset := 0; len := 3 |} {| offset := 3; len := 3 |})
    as Hslices.
  destruct Hslices as (_ & _ & _ & _ & Hsorted & _);
    [unfold inMemory; simpl; lia..|unfold apart; simpl; lia|].
  destruct Hsorted as [Hsorted _]; [reflexivity|].
  assert (elems (StringSliceContentEqual
                   ["ns-b"; "ns-a"; "ns-c"; "ns-c"; "ns-b"; "ns-a"]
                   {| offset := 0; len := 3 |}
                   {| offset := 3; len := 3 |}).2
            {| offset := 0; len := 3 |} = ["ns-a"; "ns-b"; "ns-c"]) as Heq
    by (vm_compute; reflexivity).
  rewrite <- Heq. exact Hsorted.
Defined.

(** X18: two slices that [StringSliceContentEqual] finds equal answer
    [Contains] alike for every string, before and after the call has
    reordered them, whether or not they share memory. *)
Theorem StringSliceContentEqual_Contains (mem : list string) (a b : slice)
    (s : string) :
  inMemory mem a → inMemory mem b →
  (StringSliceContentEqual mem a b).1 = Some true →
  Contains (elems mem a) s = Contains (elems mem b) s
  ∧ Contains (elems (StringSliceContentEqual mem a b).2 a) s
    = Contains (elems mem a) s
  ∧ Contains (elems (StringSliceContentEqual mem a b).2 b) s
    = Contains (elems mem b) s.
Proof.
  intros Ha Hb Htrue.
  destruct (StringSliceContentEqual_true mem a b Ha Hb Htrue)
    as (Hab & Ha' & Hb').
  split; [by apply Contains_Permutation|].
  split; by apply Contains_Permutation.
Qed.

Lemma StringSliceContentEqual_Contains_witness :
  Contains ["ns-a"; "ns-a"] "ns-a" = Contains ["ns-a"; "ns-a"] "ns-a"
  ∧ Contains ["ns-b"; "ns-a"] "ns-a" = Contains ["ns-a"; "ns-b"] "ns-a".
Proof.
  split.
  - apply (StringSliceContentEqual_Contains ["ns-a"; "ns-a"; "ns-a"]
             {| offset := 0; len := 2 |} {| offset := 1; len := 2 |} "ns-a");
      [unfold inMemory; simpl; lia..|vm_compute; reflexivity].
  - apply (StringSliceContentEqual_Contains ["ns-b"; "ns-a"; "ns-a"; "ns-b"]
             {| offset := 0; len := 2 |} {| offset := 2; len := 2 |} "ns-a");
      [unfold inMemory; simpl; lia..|vm_compute; reflexivity].
Defined.

(** X24: two slices of one array that overlap are sorted through each
    other.  Slices that hold the same strings can then be answered
    [false], and a slice can be left holding other strings than it held. *)
Theorem StringSliceContentEqual_overlapping :
  let a := {| offset := 0; len := 2 |} in
  let b := {| offset := 1; len := 2 |} in
  (elems ["b"; "a"; "b"] a ≡ₚ elems ["b"; "a"; "b"] b
   ∧ StringSliceContentEqual ["b"; "a"; "b"] a b
     = (Some false, ["a"; "b"; "b"]))
  ∧ (elems ["5"; "6"; "1"] a = ["5"; "6"]
     ∧ StringSliceContentEqual ["5"; "6"; "1"] a b
       = (Some false, ["5"; "1"; "6"])
     ∧ elems ["5"; "1"; "6"] a = ["5"; "1"]).
Proof.
  cbv zeta. split; [split; [apply perm_swap|vm_compute; reflexivity]|].
  split; [reflexivity|]. split; [vm_compute; reflexivity|reflexivity].
Qed.

(** ** [ResourceExists] and [ResourceNamespaced] *)

Lemma firstOfKind_Some (resources : list APIResource) (kind : string)
    (r : APIResource) :
  firstOfKind resources kind = Some r → r ∈ resources ∧ Kind r = kind.
Proof.
  induction resources as [|r0 resources IH]; simpl; [done|].
  case_bool_decide as Hk.
  - intros [= <-]. split; [by left|done].
  - intros [Hin Hkind]%IH. split; [by right|done].
Qed.

Lemma firstOfKind_None (resources : list APIResource) (kind : string) :
  firstOfKind resources kind = None
  ↔ ∀ r, r ∈ resources → Kind r ≠ kind.
Proof.
  induction resources as [|r0 resources IH]; simpl.
  - split; [|done]. by intros _ r ?%elem_of_nil.
  - case_bool_decide as Hk.
    + split; [done|]. intros Hall. destruct (Hall r0); [by left|done].
    + rewrite IH. split.
      * intros Hall r [->|Hin]%elem_of_cons; auto.
      * intros Hall r Hin. apply Hall. by right.
Qed.

Lemma firstInGroup_Some (lists : list APIResourceList)
    (apiGroupVersion kind : string) (r : APIResource) :
  firstInGroup lists apiGroupVersion kind = Some r →
  ∃ apiList, apiList ∈ lists ∧ GroupVersion apiList = apiGroupVersion
             ∧ r ∈ APIResources apiList ∧ Kind r = kind.
Proof.
  induction lists as [|al lists IH]; simpl; [done|].
  case_bool_decide as Hgv.
  - destruct (firstOfKind (APIResources al) kind) as [r'|] eqn:Hfirst.
    + intros [= ->]. apply firstOfKind_Some in Hfirst as [Hin Hkind].
      exists al. split_and!; try done. by left.
    + intros (al' & Hin & Hrest)%IH. exists al'. split; [by right|done].
  - intros (al' & Hin & Hrest)%IH. exists al'. split; [by right|done].
Qed.

Lemma firstInGroup_None (lists : list APIResourceList)
    (apiGroupVersion kind : string) :
  firstInGroup lists apiGroupVersion kind = None
  ↔ ∀ apiList r, apiList ∈ lists → GroupVersion apiList = apiGroupVersion →
                 r ∈ APIResources apiList → Kind r ≠ kind.
Proof.
  induction lists as [|al lists IH]; simpl.
  - split; [|done]. by intros _ al r ?%elem_of_nil.
  - case_bool_decide as Hgv.
    + destruct (firstOfKind (APIResources al) kind) as [r'|] eqn:Hfirst.
      * split; [done|]. intros Hall.
        apply firstOfKind_Some in Hfirst as [Hin Hkind].
        destruct (Hall al r'); try done. by left.
      * rewrite IH. split.
        -- intros Hall al' r [->|Hin]%elem_of_cons Hgv' Hr; [|eauto].
           by apply (proj1 (firstOfKind_None _ _) Hfirst).
        -- intros Hall al' r Hin. apply Hall. by right.
    + rewrite IH. split.
      * intros Hall al' r [->|Hin]%elem_of_cons Hgv' Hr; [done|eauto].
      * intros Hall al' r Hin. apply Hall. by right.
Qed.

(** X19: [ResourceExists] hands on the error of the discovery as it is,
    and answers [true] exactly when the discovery gave no error and one
    of its lists has the group version asked for and holds a resource of
    the kind asked for; lists that come together with an error are not
    looked at. *)
Theorem ResourceExists_iff {error : Type} (dc : discovered error)
    (apiGroupVersion kind : string) :
  (ResourceExists dc apiGroupVersion kind).2 = discoveryErr dc
  ∧ ((ResourceExists dc apiGroupVersion kind).1 = true
     ↔ discoveryErr dc = None
       ∧ ∃ apiList r, apiList ∈ apiLists dc
                      ∧ GroupVersion apiList = apiGroupVersion
                      ∧ r ∈ APIResources apiList ∧ Kind r = kind).
Proof.
  unfold ResourceExists. destruct (discoveryErr dc) as [err|]; simpl.
  { split; [done|]. split; [done|]. by intros [? _]. }
  destruct (firstInGroup (apiLists dc) apiGroupVersion kind) as [r|] eqn:Hfirst;
    simpl; (split; [done|]).
  - split; [|done]. intros _. split; [done|].
    apply firstInGroup_Some in Hfirst as (al & ? & ? & ? & ?). eauto 10.
  - split; [done|]. intros [_ (al & r & Hin & Hgv & Hr & Hkind)].
    by destruct (proj1 (firstInGroup_None _ _ _) Hfirst al r).
Qed.

(** X20: [ResourceNamespaced] returns the same error as [ResourceExists],
    and it answers [true] only for a resource for which [ResourceExists]
    answers [true]: a resource that does not exist reads as not
    namespaced, without an error. *)
Theorem ResourceNamespaced_exists {error : Type} (dc : discovered error)
    (apiGroupVersion kind : string) :
  (ResourceNamespaced dc apiGroupVersion kind).2
  = (ResourceExists dc apiGroupVersion kind).2
  ∧ ((ResourceNamespaced dc apiGroupVersion kind).1 = true →
     (ResourceExists dc apiGroupVersion kind).1 = true)
  ∧ ((ResourceExists dc apiGroupVersion kind).1 = false →
     (ResourceNamespaced dc apiGroupVersion kind).1 = false).
Proof.
  unfold ResourceNamespaced, ResourceExists.
  destruct (discoveryErr dc) as [err|]; simpl; [done|].
  by destruct (firstInGroup (apiLists dc) apiGroupVersion kind).
Qed.

(** X21: [ResourceNamespaced] answers with the first resource of the kind
    in the first list of the group version that holds one: lists of the
    group version without the kind are passed over, and later resources of
    the same kind do not count. *)
Theorem ResourceNamespaced_first_match {error : Type} (dc : discovered error)
    (apiGroupVersion kind : string) (before after : list APIResourceList)
    (apiList : APIResourceList) (rbefore rafter : list APIResource)
    (r : APIResource) :
  discoveryErr dc = None →
  apiLists dc = (before ++ apiList :: after)%list →
  (∀ (al : APIResourceList) (r' : APIResource),
     al ∈ before → GroupVersion al = apiGroupVersion →
     r' ∈ APIResources al → Kind r' ≠ kind) →
  GroupVersion apiList = apiGroupVersion →
  APIResources apiList = (rbefore ++ r :: rafter)%list →
  (∀ r' : APIResource, r' ∈ rbefore → Kind r' ≠ kind) →
  Kind r = kind →
  ResourceNamespaced dc apiGroupVersion kind = (Namespaced r, None).
Proof.
  intros Herr Hlists Hbefore Hgv Hres Hrbefore Hkind.
  unfold ResourceNamespaced. rewrite Herr, Hlists.
  assert (firstOfKind (APIResources apiList) kind = Some r) as Hfirst.
  { rewrite Hres. clear Hres.
    induction rbefore as [|r0 rbefore IH]; simpl.
    - by rewrite bool_decide_eq_true_2.
    - rewrite bool_decide_eq_false_2 by (apply Hrbefore; by left).
      apply IH. intros r' Hin. apply Hrbefore. by right. }
  assert (firstInGroup (before ++ apiList :: after)%list apiGroupVersion kind
          = Some r) as ->; [|done].
  clear Hlists. induction before as [|al before IH]; simpl.
  - by rewrite bool_decide_eq_true_2, Hfirst.
  - case_bool_decide as Hal.
    + rewrite (proj2 (firstOfKind_None (APIResources al) kind)).
      * apply IH. intros al' r' Hin. apply Hbefore. by right.
      * intros r' Hin. apply (Hbefore al r'); [by left|done..].
    + apply IH. intros al' r' Hin. apply Hbefore. by right.
Qed.

Lemma ResourceNamespaced_first_match_witness :
  ResourceNamespaced (error := string)
    {| apiLists :=
         [ {| GroupVersion := "v1";
              APIResources := [ {| Kind := "Pod"; Namespaced := true |} ] |};
           {| GroupVersion := "apps/v1";
              APIResources := [ {| Kind := "Scale"; Namespaced := true |} ] |};
           {| GroupVersion := "apps/v1";
              APIResources :=
                [ {| Kind := "Deployment"; Namespaced := true |};
                  {| Kind := "Deployment"; Namespaced := false |} ] |} ];
       discoveryErr := None |}
    "apps/v1" "Deployment"
  = (true, None).
Proof.
  apply (ResourceNamespaced_first_match (error := string) _ _ _
           [ {| GroupVersion := "v1";
                APIResources := [ {| Kind := "Pod"; Namespaced := true |} ] |};
             {| GroupVersion := "apps/v1";
                APIResources := [ {| Kind := "Scale"; Namespaced := true |} ] |} ]
           []
           {| GroupVersion := "apps/v1";
              APIResources :=
                [ {| Kind := "Deployment"; Namespaced := true |};
                  {| Kind := "Deployment"; Namespaced := false |} ] |}
           [] [ {| Kind := "Deployment"; Namespaced := false |} ]
           {| Kind := "Deployment"; Namespaced := true |});
    try reflexivity.
  - intros al r' Hal Hgv Hr.
    apply elem_of_cons in Hal as [->|Hal]; [discriminate Hgv|].
    apply elem_of_cons in Hal as [->|Hal]; [|by apply elem_of_nil in Hal].
    apply elem_of_cons in Hr as [->|Hr]; [discriminate|].
    by apply elem_of_nil in Hr.
  - intros r' Hr. by apply elem_of_nil in Hr.
Defined.

(** ** [GetWatchNamespace] *)

(** X22: [GetWatchNamespace] reads [WATCH_NAMESPACE] and
    [OPERATOR_NAMESPACE] only, and it returns the empty text exactly when
    [WATCH_NAMESPACE] is set to the empty text, or is not set while
    [OPERATOR_NAMESPACE] is not set or empty: a [WATCH_NAMESPACE] that is
    set and empty does not fall back to the namespace of the operator. *)
Theorem GetWatchNamespace_empty_iff (env : environ) :
  (GetWatchNamespace env = ""
   ↔ env !! "WATCH_NAMESPACE" = Some ""
     ∨ (env !! "WATCH_NAMESPACE" = None
        ∧ (env !! "OPERATOR_NAMESPACE" = None
           ∨ env !! "OPERATOR_NAMESPACE" = Some "")))
  ∧ ∀ env' : environ,
      env' !! "WATCH_NAMESPACE" = env !! "WATCH_NAMESPACE" →
      env' !! "OPERATOR_NAMESPACE" = env !! "OPERATOR_NAMESPACE" →
      GetWatchNamespace env' = GetWatchNamespace env.
Proof.
  unfold GetWatchNamespace, GetOperatorNamespace. split.
  - destruct (env !! "WATCH_NAMESPACE") as [ns|].
    + split; [intros ->; by left|]. by intros [[= ->]|[? _]].
    + destruct (env !! "OPERATOR_NAMESPACE") as [ns|].
      * split; [intros ->; right; eauto|].
        by intros [?|[_ [?|[= ->]]]].
      * split; [right; eauto|done].
  - by intros env' -> ->.
Qed.
